(** * RGB mood lamp: the non-blocking colour-cube traversal

    A shallow embedding of [RGB_LED_Mood_Lamp_NoBlock.ino]: the coordinate
    model, the two vertex selectors ([MD_Random] and the packed-nibble
    [path] cursor), the [traverse] state machine and the [loop] scheduler
    pass, followed by the properties established about them.

    Conventions.
    - C integers are [Z] with the wrap-around of their width written out
      ([u8], [u16], [u32]).
    - [millis()] is read at most once per call of [traverse] and of [loop];
      the value it returns in a call is the argument [now] of that call.
    - [analogWrite(pin, value)] appends the event [(pin, value)] to the
      [sink] of the machine.
    - Reading [path] or [vertex] outside the array is undefined in C; the
      model returns [None] there. *)

From Stdlib Require Import ZArith List Lia Bool.
From Equations Require Import Equations.
Import ListNotations.
Local Open Scope Z_scope.

(** ** Build-time configuration (the [#define]s) *)

Definition R_PIN : Z := 3.
Definition G_PIN : Z := 5.
Definition B_PIN : Z := 6.

Definition MIN_RGB_VALUE : Z := 10.
Definition MAX_RGB_VALUE : Z := 255.

Definition TRANSITION_DELAY : Z := 100.
Definition WAIT_DELAY : Z := 500.

(** ** Machine integers *)

Definition u8 (n : Z) : Z := n mod 2 ^ 8.
Definition u16 (n : Z) : Z := n mod 2 ^ 16.
Definition u32 (n : Z) : Z := n mod 2 ^ 32.

(** ** Coordinate model *)

(** [typedef struct { uint8_t x, y, z; } coord;] *)
Record coord : Type := mkCoord { x : Z; y : Z; z : Z }.

(** [const coord vertex[]] *)
Definition vertex : list coord :=
  [ mkCoord 0 0 0;   (* 0 *)
    mkCoord 0 0 1;   (* 1 *)
    mkCoord 0 1 1;   (* 2 *)
    mkCoord 0 1 0;   (* 3 *)
    mkCoord 1 1 0;   (* 4 *)
    mkCoord 1 0 0;   (* 5 *)
    mkCoord 1 0 1;   (* 6 *)
    mkCoord 1 1 1 ]. (* 7 *)

Definition MAX_VERTICES : Z := Z.of_nat (length vertex).

(** [vertex[k]], undefined outside the array. *)
Definition vertex_at (k : Z) : option coord :=
  if (0 <=? k) && (k <? MAX_VERTICES) then nth_error vertex (Z.to_nat k)
  else None.

(** [c ? MAX_RGB_VALUE : MIN_RGB_VALUE] *)
Definition level (c : Z) : Z :=
  if c =? 0 then MIN_RGB_VALUE else MAX_RGB_VALUE.

(** The three assignments [v.x = (vertex[k].x ? MAX_RGB_VALUE : MIN_RGB_VALUE)],
    ... of [setup] and of the path wrap in [loop]. *)
Definition materialize (c : coord) : coord :=
  mkCoord (level (x c)) (level (y c)) (level (z c)).

(** ** The traversal engine *)

Module Traverse.

(** [static enum { S_INIT, S_LOOP, S_WAITTRANS, S_WAITDELAY } state] *)
Inductive state_t : Type := S_INIT | S_LOOP | S_WAITTRANS | S_WAITDELAY.

Definition state_eqb (a b : state_t) : bool :=
  match a, b with
  | S_INIT, S_INIT | S_LOOP, S_LOOP
  | S_WAITTRANS, S_WAITTRANS | S_WAITDELAY, S_WAITDELAY => true
  | _, _ => false
  end.

(** The function-local statics of [traverse]. *)
Record statics : Type := mkStatics {
  state : state_t;
  timeStart : Z;   (* uint32_t *)
  timeDelay : Z;   (* uint32_t *)
  idx : Z;         (* uint16_t *)
  dx : Z;          (* int16_t *)
  dy : Z;
  dz : Z
}.

Definition initial : statics := mkStatics S_INIT 0 0 0 0 0 0.

End Traverse.
Import Traverse.

(** One [analogWrite(pin, value)] call. *)
Definition pwm_write : Type := (Z * Z)%type.

(** The global [v], the statics of [traverse] and the PWM events so far
    (oldest first). *)
Record machine : Type := mkMachine {
  v : coord;
  trav : statics;
  sink : list pwm_write
}.

Definition analogWrite (pin value : Z) (m : machine) : machine :=
  mkMachine (v m) (trav m) (sink m ++ [(pin, value)]).

(** [bool traverse(int16_t _dx, int16_t _dy, int16_t _dz)].
    The [default:] arm of the [switch] is not reachable: [state] only ever
    holds one of the four enumerators. The sum [v.x + dx] is taken in [int]
    and stored back into a [uint8_t]. *)
Definition traverse (now _dx _dy _dz : Z) (m : machine) : bool * machine :=
  let t := trav m in
  if state_eqb (state t) S_INIT && (_dx =? 0) && (_dy =? 0) && (_dz =? 0)
  then (true, m)
  else
    let m' :=
      match state t with
      | S_INIT =>
          mkMachine (v m)
            (mkStatics S_LOOP (timeStart t) (timeDelay t) 0 _dx _dy _dz)
            (sink m)
      | S_LOOP =>
          if idx t >=? MAX_RGB_VALUE - MIN_RGB_VALUE
          then
            mkMachine (v m)
              (mkStatics S_WAITDELAY now WAIT_DELAY (idx t) (dx t) (dy t) (dz t))
              (sink m)
          else
            let m1 := analogWrite R_PIN (x (v m)) m in
            let m2 := analogWrite G_PIN (y (v m1)) m1 in
            let m3 := analogWrite B_PIN (z (v m2)) m2 in
            mkMachine
              (mkCoord (u8 (x (v m3) + dx t))
                       (u8 (y (v m3) + dy t))
                       (u8 (z (v m3) + dz t)))
              (mkStatics S_WAITTRANS now TRANSITION_DELAY
                         (u16 (idx t + 1)) (dx t) (dy t) (dz t))
              (sink m3)
      | S_WAITTRANS | S_WAITDELAY =>
          if u32 (now - timeStart t) >=? timeDelay t
          then
            mkMachine (v m)
              (mkStatics
                 (if state_eqb (state t) S_WAITDELAY then S_INIT else S_LOOP)
                 (timeStart t) (timeDelay t) (idx t) (dx t) (dy t) (dz t))
              (sink m)
          else m
      end in
    (state_eqb (state (trav m')) S_INIT, m').

(** The polling that [loop] does in its [S_ANIMATE] state: call [traverse]
    with the same deltas, once per clock reading, until it returns [true].
    [None] when the readings run out first. *)
Fixpoint run_session (clock : list Z) (d : Z * Z * Z) (m : machine)
  : option machine :=
  match clock with
  | [] => None
  | now :: rest =>
      let '(ddx, ddy, ddz) := d in
      let '(done, m') := traverse now ddx ddy ddz m in
      if done then Some m' else run_session rest d m'
  end.

(** [vertex[v2].x-vertex[v1].x, vertex[v2].y-vertex[v1].y,
    vertex[v2].z-vertex[v1].z], the arguments [loop] passes to [traverse]. *)
Definition deltas (v1 v2 : Z) : option (Z * Z * Z) :=
  match vertex_at v1, vertex_at v2 with
  | Some a, Some b => Some (x b - x a, y b - y a, z b - z a)
  | _, _ => None
  end.

(** The machine as [setup] leaves it. *)
Definition setup : option machine :=
  match vertex_at 0 with
  | Some c => Some (mkMachine (materialize c) Traverse.initial [])
  | None => None
  end.

(** ** Vertex selection *)

(** The [while (n > 0)] loop of [MD_Random]: [r = r + (n % 10); n = n/10;]
    with [r] a [uint16_t]. *)
Equations? digit_loop (n r : Z) : Z by wf (Z.to_nat n) lt :=
  digit_loop n r with Z_gt_dec n 0 => {
    | left _ := digit_loop (Z.quot n 10) (u16 (r + Z.rem n 10));
    | right _ := r }.
Proof.
  rewrite Z.quot_div_nonneg by lia.
  assert (n / 10 < n) by (apply Z.div_lt; lia).
  assert (0 <= n / 10) by (apply Z.div_pos; lia).
  lia.
Qed.

(** [uint16_t MD_Random(int nMax)], with [now] the value of [millis()]. *)
Definition MD_Random (now nMax : Z) : Z :=
  u16 (Z.rem (digit_loop now 0) nMax).

(** [const uint8_t path[]] *)
Definition path : list Z :=
  [ 0x01; 0x23; 0x45; 0x67; 0x21; 0x65; 0x00;          (* trace the edges *)
    0x26; 0x41; 0x35; 0x71; 0x25; 0x36; 0x14; 0x70 ].  (* do the diagonals *)

Definition MAX_PATH_SIZE : Z := Z.of_nat (length path).

(** [path[k]], undefined outside the array. *)
Definition path_at (k : Z) : option Z :=
  if (0 <=? k) && (k <? MAX_PATH_SIZE) then nth_error path (Z.to_nat k)
  else None.

Module Loop.

(** [static enum { S_LOOP, S_ANIMATE } state] *)
Inductive state_t : Type := S_LOOP | S_ANIMATE.

(** The function-local statics of [loop]; [i] is the nibble cursor of the
    fixed-path build. *)
Record statics : Type := mkStatics {
  state : state_t;
  v1 : Z;   (* uint8_t *)
  v2 : Z;   (* uint8_t *)
  i : Z     (* int *)
}.

Definition initial : statics := mkStatics S_LOOP 0 0 0.

End Loop.

(** The fixed-path arm of [loop]'s [S_LOOP] case, entered after [v1 = v2]:
    the cursor test [i++ >= 2*MAX_PATH_SIZE] with its reset and re-anchoring,
    then the nibble read. Returns the new cursor, the new [v2] and, when the
    cursor was reset, the coordinate that [v] is re-initialised to. *)
Definition next_path_vertex (cur prev : Z) : option (Z * Z * option coord) :=
  let wrapped :=
    if cur >=? 2 * MAX_PATH_SIZE
    then match vertex_at prev with
         | Some c => Some (0, Some (materialize c))
         | None => None
         end
    else Some (cur + 1, None) in
  match wrapped with
  | None => None
  | Some (i', anchor) =>
      match path_at (Z.shiftr i' 1) with
      | None => None
      | Some b =>
          let nv :=
            if negb (Z.land i' 1 =? 0) then Z.land b 0xf else Z.shiftr b 4 in
          Some (i', nv, anchor)
      end
  end.

(** The [S_LOOP] case of [loop]: [v1 = v2], then the selector chosen at
    build time by [RANDOM_DISPLAY]. *)
Definition select_vertex (RANDOM_DISPLAY : bool) (now : Z) (l : Loop.statics)
  : option (Loop.statics * option coord) :=
  if RANDOM_DISPLAY
  then Some (Loop.mkStatics Loop.S_ANIMATE (Loop.v2 l)
               (u8 (MD_Random now MAX_VERTICES)) (Loop.i l), None)
  else
    match next_path_vertex (Loop.i l) (Loop.v2 l) with
    | Some (i', nv, anchor) =>
        Some (Loop.mkStatics Loop.S_ANIMATE (Loop.v2 l) nv i', anchor)
    | None => None
    end.

(** [void loop()], one scheduler pass. *)
Definition loop (RANDOM_DISPLAY : bool) (now : Z)
  (lm : Loop.statics * machine) : option (Loop.statics * machine) :=
  let '(l, m) := lm in
  match Loop.state l with
  | Loop.S_LOOP =>
      match select_vertex RANDOM_DISPLAY now l with
      | Some (l', Some c) => Some (l', mkMachine c (trav m) (sink m))
      | Some (l', None) => Some (l', m)
      | None => None
      end
  | Loop.S_ANIMATE =>
      match deltas (Loop.v1 l) (Loop.v2 l) with
      | Some (ddx, ddy, ddz) =>
          let '(done, m') := traverse now ddx ddy ddz m in
          Some (if done
                then Loop.mkStatics Loop.S_LOOP (Loop.v1 l) (Loop.v2 l) (Loop.i l)
                else l, m')
      | None => None
      end
  end.

(** [n] consecutive [S_LOOP] passes of the fixed-path build, seen from the
    statics of [loop] alone (the sessions in between do not touch them). *)
Fixpoint path_selections (n : nat) (l : Loop.statics) : option Loop.statics :=
  match n with
  | O => Some l
  | S k =>
      match path_selections k l with
      | Some l' =>
          match select_vertex false 0 l' with
          | Some (l'', _) => Some l''
          | None => None
          end
      | None => None
      end
  end.

(** Successive scheduler passes, one per clock reading. *)
Fixpoint loop_all (RANDOM_DISPLAY : bool) (clock : list Z)
  (lm : Loop.statics * machine) : option (Loop.statics * machine) :=
  match clock with
  | [] => Some lm
  | now :: rest =>
      match loop RANDOM_DISPLAY now lm with
      | Some lm' => loop_all RANDOM_DISPLAY rest lm'
      | None => None
      end
  end.

(** ** The blocking variant

    The earlier sketch of the repository: the same tables, [MD_Random] and
    path cursor, but [traverse] is a [for] loop that waits with [delay], and
    [loop] calls it once per pass. [delay(ms)] adds [ms] to [delayed]. *)

Module Blocking.

(** This sketch is built with [#define ATTINY2313 1]: the PWM pins are
    those of the ATTiny 2313. *)
Definition R_PIN : Z := 13.
Definition G_PIN : Z := 11.
Definition B_PIN : Z := 12.

(** The global [v], the PWM events so far and the milliseconds spent in
    [delay]. *)
Record machine : Type := mkMachine {
  v : coord;
  sink : list pwm_write;
  delayed : Z
}.

Definition analogWrite (pin value : Z) (m : machine) : machine :=
  mkMachine (v m) (sink m ++ [(pin, value)]) (delayed m).

Definition delay (ms : Z) (m : machine) : machine :=
  mkMachine (v m) (sink m) (delayed m + ms).

(** [for (int i = 0; i < MAX_RGB_VALUE-MIN_RGB_VALUE;
          i++, v.x += dx, v.y += dy, v.z += dz) { ... }], entered at [i];
    [n] stands for the bound [MAX_RGB_VALUE-MIN_RGB_VALUE]. *)
Equations? for_loop (n i dx dy dz : Z) (m : machine) : machine
  by wf (Z.to_nat (n - i)) lt :=
  for_loop n i dx dy dz m with Z_lt_dec i n => {
    | left _ :=
        let m1 := analogWrite R_PIN (x (v m)) m in
        let m2 := analogWrite G_PIN (y (v m1)) m1 in
        let m3 := analogWrite B_PIN (z (v m2)) m2 in
        let m4 := delay TRANSITION_DELAY m3 in
        for_loop n (i + 1) dx dy dz
          (mkMachine
             (mkCoord (u8 (x (v m4) + dx)) (u8 (y (v m4) + dy))
                      (u8 (z (v m4) + dz)))
             (sink m4) (delayed m4));
    | right _ := m }.
Proof. lia. Qed.

(** [void traverse(int dx, int dy, int dz)] *)
Definition traverse (dx dy dz : Z) (m : machine) : machine :=
  if (dx =? 0) && (dy =? 0) && (dz =? 0) then m
  else delay WAIT_DELAY
         (for_loop (MAX_RGB_VALUE - MIN_RGB_VALUE) 0 dx dy dz m).

(** The statics of the blocking [loop]. *)
Record statics : Type := mkStatics {
  v1 : Z;   (* uint8_t *)
  v2 : Z;   (* uint8_t *)
  i : Z     (* int *)
}.

Definition initial : statics := mkStatics 0 0 0.

(** [void loop()] with [DEBUG_MODE] off: [v1 = v2], the selector, then one
    whole traverse. *)
Definition loop (RANDOM_DISPLAY : bool) (now : Z) (lm : statics * machine)
  : option (statics * machine) :=
  let '(l, m) := lm in
  let selected :=
    if RANDOM_DISPLAY
    then Some (i l, u8 (MD_Random now MAX_VERTICES), None)
    else next_path_vertex (i l) (v2 l) in
  match selected with
  | Some (i', nv, anchor) =>
      let m1 :=
        match anchor with
        | Some c => mkMachine c (sink m) (delayed m)
        | None => m
        end in
      match deltas (v2 l) nv with
      | Some (ddx, ddy, ddz) =>
          Some (mkStatics (v2 l) nv i', traverse ddx ddy ddz m1)
      | None => None
      end
  | None => None
  end.

(** Successive passes of the blocking [loop]. *)
Fixpoint loop_all (RANDOM_DISPLAY : bool) (clock : list Z)
  (lm : statics * machine) : option (statics * machine) :=
  match clock with
  | [] => Some lm
  | now :: rest =>
      match loop RANDOM_DISPLAY now lm with
      | Some lm' => loop_all RANDOM_DISPLAY rest lm'
      | None => None
      end
  end.

(** The blocking lamp right after [setup]. *)
Definition power_on : machine :=
  mkMachine (mkCoord MIN_RGB_VALUE MIN_RGB_VALUE MIN_RGB_VALUE) [] 0.

End Blocking.

(** ** Vocabulary of the properties *)

(** The three [analogWrite] calls of one [S_LOOP] step. *)
Definition frame_events (c : coord) : list pwm_write :=
  [(R_PIN, x c); (G_PIN, y c); (B_PIN, z c)].

(** The same three calls in the blocking sketch, on its own pins. *)
Definition blocking_frame_events (c : coord) : list pwm_write :=
  [(Blocking.R_PIN, x c); (Blocking.G_PIN, y c); (Blocking.B_PIN, z c)].

(** From [m0] to [m] exactly the triples [w] were pushed, in that order:
    the sink grew by their red, green and blue events and by nothing
    else. *)
Definition pushed (m0 m : machine) (w : list coord) : Prop :=
  sink m = sink m0 ++ flat_map frame_events w.

(** The colour triples pushed to the three PWM channels, read back from the
    event list: every red, green, blue group of three is one write. *)
Fixpoint frames (evs : list pwm_write) : list coord :=
  match evs with
  | (p1, r) :: (p2, g) :: (p3, b) :: rest =>
      if (p1 =? R_PIN) && (p2 =? G_PIN) && (p3 =? B_PIN)
      then mkCoord r g b :: frames rest
      else []
  | _ => []
  end.

(** The triples written after the machine was [m0], up to [m]. *)
Definition session_writes (m0 m : machine) : list coord :=
  frames (skipn (length (sink m0)) (sink m)).

(** [v.x += dx; v.y += dy; v.z += dz;] *)
Definition advance (d : Z * Z * Z) (c : coord) : coord :=
  let '(ddx, ddy, ddz) := d in
  mkCoord (u8 (x c + ddx)) (u8 (y c + ddy)) (u8 (z c + ddz)).

(** The coordinate [k] steps after [c]. *)
Definition position (d : Z * Z * Z) (c : coord) (k : nat) : coord :=
  Nat.iter k (advance d) c.

(** The first [n] coordinates of a session that starts at [c]. *)
Definition trail (d : Z * Z * Z) (c : coord) (n : nat) : list coord :=
  map (position d c) (seq 0 n).

Definition STEPS : nat := Z.to_nat (MAX_RGB_VALUE - MIN_RGB_VALUE).

Definition nonzero (d : Z * Z * Z) : Prop := d <> (0, 0, 0).

(** The machines a session passes through: [session_reach d m0 done m] when
    polling [traverse] with deltas [d] from [m0] can bring the machine to
    [m]; [done] tells whether the last call reported completion, after
    which the session is over. *)
Inductive session_reach (d : Z * Z * Z) (m0 : machine)
  : bool -> machine -> Prop :=
| reach_start : session_reach d m0 false m0
| reach_call : forall now m,
    session_reach d m0 false m ->
    session_reach d m0
      (fst (traverse now (fst (fst d)) (snd (fst d)) (snd d) m))
      (snd (traverse now (fst (fst d)) (snd (fst d)) (snd d) m)).

(** [c] lies on the closed segment from [p] to [q]: [c = p + (k/N)(q - p)]
    for some [k] in [0, N], [N = MAX_RGB_VALUE - MIN_RGB_VALUE]. Between two
    materialized vertices, whose axes differ by [0] or [N], these are all
    the integer points of the segment. *)
Definition on_segmentb (p q c : coord) : bool :=
  let N := MAX_RGB_VALUE - MIN_RGB_VALUE in
  existsb (fun j =>
             let k := Z.of_nat j in
             (N * x c =? (N - k) * x p + k * x q)
             && (N * y c =? (N - k) * y p + k * y q)
             && (N * z c =? (N - k) * z p + k * z q))
          (seq 0 (S STEPS)).

(** The [k]-th decimal digit of [n], and the sum of the ten digits a
    32-bit counter can have. *)
Definition decimal_digit (n : Z) (k : nat) : Z := (n / 10 ^ Z.of_nat k) mod 10.

Definition digit_sum (n : Z) : Z :=
  fold_right Z.add 0 (map (decimal_digit n) (seq 0 10)).

(** The elapsed-time source keeps advancing: after any call, and whatever
    instant a timer was started at, some later reading is at least
    [WAIT_DELAY] past that instant. *)
Definition time_passes (clock : nat -> Z) : Prop :=
  forall (n : nat) (t : Z),
    exists k : nat, (n <= k)%nat /\ WAIT_DELAY <= u32 (clock k - t).

(** The first [n] readings of a clock. *)
Definition readings (clock : nat -> Z) (n : nat) : list Z :=
  map clock (seq 0 n).

(** The machine with the state of [traverse] replaced. *)
Definition with_state (s : state_t) (m : machine) : machine :=
  let t := trav m in
  mkMachine (v m)
    (mkStatics s (timeStart t) (timeDelay t) (idx t) (dx t) (dy t) (dz t))
    (sink m).

(** What the statics, the coordinate and the sink hold [k] steps into a
    session with deltas [d] that started from [m0]. *)
Definition progress (d : Z * Z * Z) (m0 m : machine) (k : nat) : Prop :=
  idx (trav m) = Z.of_nat k
  /\ (dx (trav m), dy (trav m), dz (trav m)) = d
  /\ v m = position d (v m0) k
  /\ sink m = sink m0 ++ flat_map frame_events (trail d (v m0) k).

(** The invariant of a session: before the first call the machine is [m0];
    afterwards it is [k] steps in, for some [k] that the state constrains;
    at the completion report all [STEPS] steps are done. *)
Definition session_inv (d : Z * Z * Z) (m0 : machine)
  (done : bool) (m : machine) : Prop :=
  if done
  then state (trav m) = S_INIT /\ progress d m0 m STEPS
  else m = m0
       \/ exists k : nat,
            (k <= STEPS)%nat /\ progress d m0 m k
            /\ match state (trav m) with
               | S_INIT => False
               | S_LOOP => True
               | S_WAITTRANS => (1 <= k)%nat
               | S_WAITDELAY => k = STEPS
               end.

(** Polling from the reading number [s] onwards sees the session end. *)
Definition completes_from (clock : nat -> Z) (s : nat) (d : Z * Z * Z)
  (m : machine) : Prop :=
  exists (n : nat) (m' : machine),
    run_session (map clock (seq s n)) d m = Some m'.

(** What can be said of a session polled from [m] with deltas [d]: every
    completion report leaves a machine satisfying [Q], and when time passes
    a completion report does come. *)
Definition session_outcome (d : Z * Z * Z) (m : machine)
  (Q : machine -> Prop) : Prop :=
  (forall (clock : list Z) (m' : machine),
      run_session clock d m = Some m' -> Q m')
  /\ (forall clock : nat -> Z,
        time_passes clock ->
        exists (n : nat) (m' : machine),
          run_session (readings clock n) d m = Some m' /\ Q m').

(** Calling [traverse] once per reading, whatever it returns. *)
Definition invoke_all (clock : list Z) (d : Z * Z * Z) (m : machine)
  : machine :=
  fold_left
    (fun acc now => snd (traverse now (fst (fst d)) (snd (fst d)) (snd d) acc))
    clock m.

(** A scheduler that comes round every [WAIT_DELAY] milliseconds. *)
Definition steady_clock (k : nat) : Z := WAIT_DELAY * Z.of_nat k.

(** The lamp right after [setup]. *)
Definition power_on : machine :=
  mkMachine (mkCoord MIN_RGB_VALUE MIN_RGB_VALUE MIN_RGB_VALUE)
    Traverse.initial [].

(** Every axis of [c] is a duty cycle between the two configured limits. *)
Definition in_range (c : coord) : Prop :=
  MIN_RGB_VALUE <= x c <= MAX_RGB_VALUE
  /\ MIN_RGB_VALUE <= y c <= MAX_RGB_VALUE
  /\ MIN_RGB_VALUE <= z c <= MAX_RGB_VALUE.

(** A PWM event on one of the three LED pins with a duty cycle between the
    two configured limits. *)
Definition pwm_ok (e : pwm_write) : Prop :=
  (fst e = R_PIN \/ fst e = G_PIN \/ fst e = B_PIN)
  /\ MIN_RGB_VALUE <= snd e <= MAX_RGB_VALUE.

(** The invariant of the lamp between two passes of [loop]: [v1] and [v2]
    index the vertex table; when [loop] is about to select, [traverse] is
    idle and the coordinate is the materialized vertex [v2]; while it
    animates, the machine is inside a session from vertex [v1] to vertex
    [v2]. *)
Definition lamp_inv (lm : Loop.statics * machine) : Prop :=
  let '(l, m) := lm in
  exists a b : coord,
    vertex_at (Loop.v1 l) = Some a /\ vertex_at (Loop.v2 l) = Some b
    /\ match Loop.state l with
       | Loop.S_LOOP =>
           state (trav m) = S_INIT /\ v m = materialize b
           /\ Forall pwm_ok (sink m)
       | Loop.S_ANIMATE =>
           exists m0 : machine,
             state (trav m0) = S_INIT /\ v m0 = materialize a
             /\ Forall pwm_ok (sink m0)
             /\ session_reach (x b - x a, y b - y a, z b - z a) m0 false m
       end.

(** The lamp of the non-blocking sketch after [setup]. *)
Definition lamp_start : Loop.statics * machine := (Loop.initial, power_on).

(** The vertex numbers of [path], two per byte, high nibble first. *)
Definition path_nibbles : list Z :=
  flat_map (fun b => [b / 16; b mod 16]) path.

(** The readings are 32-bit values that never go back. *)
Fixpoint monotone_clock (clock : list Z) : bool :=
  match clock with
  | [] => true
  | a :: rest =>
      (0 <=? a) && (a <? 2 ^ 32)
      && match rest with
         | [] => true
         | b :: _ => a <=? b
         end
      && monotone_clock rest
  end.

(** [((MAX_RGB_VALUE - MIN_RGB_VALUE) * TRANSITION_DELAY) + WAIT_DELAY], the
    total traversal time of the header comment. *)
Definition traversal_time : Z :=
  (MAX_RGB_VALUE - MIN_RGB_VALUE) * TRANSITION_DELAY + WAIT_DELAY.

(** What the timers of a session that started at [t0] guarantee when no
    reading to come is below [lo]. *)
Definition timing_inv (t0 lo : Z) (m : machine) : Prop :=
  let t := trav m in
  match state t with
  | S_INIT => False
  | S_LOOP =>
      0 <= idx t <= MAX_RGB_VALUE - MIN_RGB_VALUE
      /\ t0 + TRANSITION_DELAY * idx t <= lo
  | S_WAITTRANS =>
      1 <= idx t <= MAX_RGB_VALUE - MIN_RGB_VALUE
      /\ timeDelay t = TRANSITION_DELAY
      /\ 0 <= timeStart t <= lo
      /\ t0 + TRANSITION_DELAY * (idx t - 1) <= timeStart t
  | S_WAITDELAY =>
      timeDelay t = WAIT_DELAY
      /\ 0 <= timeStart t <= lo
      /\ t0 + TRANSITION_DELAY * (MAX_RGB_VALUE - MIN_RGB_VALUE)
         <= timeStart t
  end.

(** The invariant of the blocking lamp between two passes of its [loop]:
    the coordinate is the materialized vertex [v2]. *)
Definition blocking_inv (lm : Blocking.statics * Blocking.machine) : Prop :=
  exists b : coord,
    vertex_at (Blocking.v2 (fst lm)) = Some b
    /\ Blocking.v (snd lm) = materialize b.

(** * Properties *)

(** ** Machine integers and the vertex table *)

Lemma u8_small (n : Z) : 0 <= n < 256 -> u8 n = n.
Proof. intros H. unfold u8. apply Z.mod_small. lia. Qed.

Lemma u16_small (n : Z) : 0 <= n < 65536 -> u16 n = n.
Proof. intros H. unfold u16. apply Z.mod_small. lia. Qed.

Lemma vertex_at_range (k : Z) (c : coord) :
  vertex_at k = Some c -> 0 <= k < 8.
Proof.
  unfold vertex_at.
  destruct (0 <=? k) eqn:H0; destruct (k <? MAX_VERTICES) eqn:H1;
    simpl; try discriminate.
  intros _. apply Z.leb_le in H0. apply Z.ltb_lt in H1.
  unfold MAX_VERTICES in H1. simpl in H1. lia.
Qed.

Lemma vertex_at_cases (k : Z) (c : coord) :
  vertex_at k = Some c ->
  In (k, c) (combine [0; 1; 2; 3; 4; 5; 6; 7] vertex).
Proof.
  intros H. pose proof (vertex_at_range _ _ H) as R.
  assert (k = 0 \/ k = 1 \/ k = 2 \/ k = 3 \/ k = 4 \/ k = 5 \/ k = 6 \/ k = 7)
    as E by lia.
  repeat (destruct E as [E | E]); subst k; vm_compute in H;
    injection H as <-; simpl; tauto.
Qed.

Lemma vertex_boolean (k : Z) (c : coord) :
  vertex_at k = Some c ->
  (x c = 0 \/ x c = 1) /\ (y c = 0 \/ y c = 1) /\ (z c = 0 \/ z c = 1).
Proof.
  intros H. apply vertex_at_cases in H. simpl in H.
  repeat (destruct H as [H | H]; [injection H as _ <-; simpl; lia |]).
  contradiction.
Qed.

Lemma vertex_injective (j k : Z) (a b : coord) :
  vertex_at j = Some a -> vertex_at k = Some b -> a = b -> j = k.
Proof.
  intros Ha Hb E. subst b.
  apply vertex_at_cases in Ha. apply vertex_at_cases in Hb.
  simpl in Ha, Hb.
  repeat (destruct Ha as [Ha | Ha]; [injection Ha as <- <- |]);
    try contradiction;
    repeat (destruct Hb as [Hb | Hb]; [injection Hb as <- |]);
    try contradiction; try reflexivity; discriminate.
Qed.

Lemma STEPS_val : Z.of_nat STEPS = MAX_RGB_VALUE - MIN_RGB_VALUE.
Proof. reflexivity. Qed.

(** ** The equations of [traverse], one per arm *)

Lemma nonzero_test (a b c : Z) :
  nonzero (a, b, c) -> (a =? 0) && (b =? 0) && (c =? 0) = false.
Proof.
  intros H.
  destruct (Z.eqb_spec a 0); destruct (Z.eqb_spec b 0);
    destruct (Z.eqb_spec c 0); try reflexivity.
  subst. exfalso. apply H. reflexivity.
Qed.

Lemma traverse_idle (now : Z) (m : machine) :
  state (trav m) = S_INIT -> traverse now 0 0 0 m = (true, m).
Proof. intros H. unfold traverse. rewrite H. reflexivity. Qed.

Lemma traverse_init (now a b c : Z) (m : machine) :
  state (trav m) = S_INIT -> nonzero (a, b, c) ->
  traverse now a b c m =
  (false,
   mkMachine (v m)
     (mkStatics S_LOOP (timeStart (trav m)) (timeDelay (trav m)) 0 a b c)
     (sink m)).
Proof.
  intros H N. unfold traverse. rewrite H.
  cbn [state_eqb andb]. rewrite nonzero_test by exact N. reflexivity.
Qed.

Lemma traverse_loop_step (now a b c : Z) (m : machine) :
  state (trav m) = S_LOOP ->
  idx (trav m) < MAX_RGB_VALUE - MIN_RGB_VALUE ->
  traverse now a b c m =
  (false,
   mkMachine (advance (dx (trav m), dy (trav m), dz (trav m)) (v m))
     (mkStatics S_WAITTRANS now TRANSITION_DELAY (u16 (idx (trav m) + 1))
        (dx (trav m)) (dy (trav m)) (dz (trav m)))
     (sink m ++ frame_events (v m))).
Proof.
  intros H L. unfold traverse. rewrite H. cbn [state_eqb andb].
  destruct (Z.geb_spec (idx (trav m)) (MAX_RGB_VALUE - MIN_RGB_VALUE)) as [G | G];
    [lia |].
  unfold analogWrite, advance, frame_events. cbn [v sink trav state state_eqb].
  rewrite <- !app_assoc. reflexivity.
Qed.

Lemma traverse_loop_end (now a b c : Z) (m : machine) :
  state (trav m) = S_LOOP ->
  MAX_RGB_VALUE - MIN_RGB_VALUE <= idx (trav m) ->
  traverse now a b c m =
  (false,
   mkMachine (v m)
     (mkStatics S_WAITDELAY now WAIT_DELAY (idx (trav m))
        (dx (trav m)) (dy (trav m)) (dz (trav m)))
     (sink m)).
Proof.
  intros H L. unfold traverse. rewrite H. cbn [state_eqb andb].
  destruct (Z.geb_spec (idx (trav m)) (MAX_RGB_VALUE - MIN_RGB_VALUE)) as [G | G];
    [reflexivity | lia].
Qed.

Lemma traverse_wait_hold (now a b c : Z) (m : machine) :
  state (trav m) = S_WAITTRANS \/ state (trav m) = S_WAITDELAY ->
  u32 (now - timeStart (trav m)) < timeDelay (trav m) ->
  traverse now a b c m = (false, m).
Proof.
  intros H L. unfold traverse.
  destruct H as [H | H]; rewrite H; cbn [state_eqb andb];
    (destruct (Z.geb_spec (u32 (now - timeStart (trav m))) (timeDelay (trav m)));
     [lia | rewrite H; reflexivity]).
Qed.

Lemma traverse_waittrans_exit (now a b c : Z) (m : machine) :
  state (trav m) = S_WAITTRANS ->
  timeDelay (trav m) <= u32 (now - timeStart (trav m)) ->
  traverse now a b c m = (false, with_state S_LOOP m).
Proof.
  intros H L. unfold traverse. rewrite H. cbn [state_eqb andb].
  destruct (Z.geb_spec (u32 (now - timeStart (trav m))) (timeDelay (trav m)));
    [reflexivity | lia].
Qed.

Lemma traverse_waitdelay_exit (now a b c : Z) (m : machine) :
  state (trav m) = S_WAITDELAY ->
  timeDelay (trav m) <= u32 (now - timeStart (trav m)) ->
  traverse now a b c m = (true, with_state S_INIT m).
Proof.
  intros H L. unfold traverse. rewrite H. cbn [state_eqb andb].
  destruct (Z.geb_spec (u32 (now - timeStart (trav m))) (timeDelay (trav m)));
    [reflexivity | lia].
Qed.

(** ** The session invariant *)

Lemma trail_S (d : Z * Z * Z) (c : coord) (k : nat) :
  trail d c (S k) = trail d c k ++ [position d c k].
Proof. unfold trail. rewrite seq_S, map_app. reflexivity. Qed.

Lemma trail_length (d : Z * Z * Z) (c : coord) (k : nat) :
  length (trail d c k) = k.
Proof. unfold trail. rewrite length_map, length_seq. reflexivity. Qed.

Lemma progress_with_state (d : Z * Z * Z) (m0 m : machine) (k : nat)
  (s : state_t) :
  progress d m0 m k -> progress d m0 (with_state s m) k.
Proof. intros H. exact H. Qed.

Lemma session_inv_step (d : Z * Z * Z) (m0 m : machine) (now : Z) :
  nonzero d -> state (trav m0) = S_INIT ->
  session_inv d m0 false m ->
  session_inv d m0
    (fst (traverse now (fst (fst d)) (snd (fst d)) (snd d) m))
    (snd (traverse now (fst (fst d)) (snd (fst d)) (snd d) m)).
Proof.
  destruct d as [[a b] c]. cbn [fst snd].
  intros N H0 [-> | (k & Hk & P & Hst)].
  - rewrite traverse_init by assumption. cbn [fst snd].
    right. exists 0%nat. split; [lia |]. split; [| exact I].
    unfold progress. cbn. rewrite app_nil_r. auto.
  - pose proof STEPS_val as SV.
    unfold MAX_RGB_VALUE, MIN_RGB_VALUE in SV.
    destruct P as (Hi & Hd & Hv & Hs).
    destruct (state (trav m)) eqn:St.
    + contradiction.
    + destruct (Z_lt_le_dec (idx (trav m)) (MAX_RGB_VALUE - MIN_RGB_VALUE))
        as [L | L].
      * rewrite traverse_loop_step by assumption. cbn [fst snd].
        unfold MAX_RGB_VALUE, MIN_RGB_VALUE in L.
        right. exists (S k). split; [lia |]. split; [| cbn; lia].
        unfold progress. cbn [trav idx dx dy dz v sink]. repeat split.
        -- rewrite Hi, u16_small by lia. lia.
        -- exact Hd.
        -- rewrite Hd, Hv. reflexivity.
        -- rewrite Hs, trail_S, flat_map_app, <- app_assoc, Hv.
           cbn [flat_map]. rewrite app_nil_r. reflexivity.
      * rewrite traverse_loop_end by assumption. cbn [fst snd].
        unfold MAX_RGB_VALUE, MIN_RGB_VALUE in L.
        right. exists k. split; [lia |]. split; [| cbn; lia].
        unfold progress. cbn [trav idx dx dy dz v sink]. auto.
    + destruct (Z_lt_le_dec (u32 (now - timeStart (trav m))) (timeDelay (trav m)))
        as [L | L].
      * rewrite traverse_wait_hold by auto. cbn [fst snd].
        right. exists k. rewrite St. unfold progress. repeat split; assumption.
      * rewrite traverse_waittrans_exit by assumption. cbn [fst snd].
        right. exists k. split; [lia |]. split; [| exact I].
        apply progress_with_state. unfold progress. auto.
    + destruct (Z_lt_le_dec (u32 (now - timeStart (trav m))) (timeDelay (trav m)))
        as [L | L].
      * rewrite traverse_wait_hold by auto. cbn [fst snd].
        right. exists k. rewrite St. unfold progress. repeat split; assumption.
      * rewrite traverse_waitdelay_exit by assumption. cbn [fst snd].
        split; [reflexivity |]. subst k.
        apply progress_with_state. unfold progress. auto.
Qed.

Lemma session_reach_inv (d : Z * Z * Z) (m0 : machine) (done : bool)
  (m : machine) :
  nonzero d -> state (trav m0) = S_INIT ->
  session_reach d m0 done m -> session_inv d m0 done m.
Proof.
  intros N H0 R. induction R as [| now m R IH].
  - left. reflexivity.
  - apply session_inv_step; assumption.
Qed.

Lemma run_session_reach (d : Z * Z * Z) (m0 : machine) (clock : list Z) :
  forall m m' : machine,
    session_reach d m0 false m ->
    run_session clock d m = Some m' ->
    session_reach d m0 true m'.
Proof.
  induction clock as [| now rest IH]; intros m m' R E.
  - discriminate.
  - pose proof (reach_call d m0 now m R) as R'.
    destruct d as [[a b] c]. cbn [run_session] in E. cbn [fst snd] in R'.
    destruct (traverse now a b c m) as [done m1]. cbn [fst snd] in R'.
    destruct done.
    + injection E as <-. exact R'.
    + eapply IH; eassumption.
Qed.

Lemma run_session_inv (d : Z * Z * Z) (m0 m' : machine) (clock : list Z) :
  nonzero d -> state (trav m0) = S_INIT ->
  run_session clock d m0 = Some m' ->
  state (trav m') = S_INIT /\ progress d m0 m' STEPS.
Proof.
  intros N H0 E.
  apply (session_reach_inv d m0 true m' N H0).
  eapply run_session_reach; [apply reach_start | exact E].
Qed.

(** ** Sessions end when time passes *)

Lemma triple_eta (d : Z * Z * Z) : d = (fst (fst d), snd (fst d), snd d).
Proof. destruct d as [[a b] c]. reflexivity. Qed.

Section Completion.

Variable clock : nat -> Z.
Variable d : Z * Z * Z.
Hypothesis ticking : time_passes clock.

Let call (s : nat) (m : machine) : bool * machine :=
  traverse (clock s) (fst (fst d)) (snd (fst d)) (snd d) m.

Lemma completes_now (s : nat) (m : machine) :
  fst (call s m) = true -> completes_from clock s d m.
Proof.
  intros H. exists 1%nat, (snd (call s m)).
  unfold call in *. destruct d as [[a b] c]. cbn [fst snd] in *.
  cbn [seq map run_session].
  destruct (traverse (clock s) a b c m) as [done m1]. cbn [fst snd] in *.
  subst done. reflexivity.
Qed.

Lemma completes_later (s : nat) (m : machine) :
  fst (call s m) = false ->
  completes_from clock (S s) d (snd (call s m)) ->
  completes_from clock s d m.
Proof.
  intros H (n & m' & E). exists (S n), m'.
  unfold call in *. destruct d as [[a b] c]. cbn [fst snd] in *.
  cbn [seq map run_session].
  destruct (traverse (clock s) a b c m) as [done m1]. cbn [fst snd] in *.
  subst done. exact E.
Qed.

Lemma wait_delay_completes (m : machine) :
  state (trav m) = S_WAITDELAY -> timeDelay (trav m) <= WAIT_DELAY ->
  forall s : nat, completes_from clock s d m.
Proof.
  intros St TD s.
  destruct (ticking s (timeStart (trav m))) as (k & Hk & E).
  remember (k - s)%nat as gap eqn:G.
  revert s Hk G. induction gap as [| gap IH]; intros s Hk G.
  - assert (k = s) by lia. subst k.
    apply completes_now. unfold call.
    rewrite traverse_waitdelay_exit by (assumption || lia). reflexivity.
  - destruct (Z_lt_le_dec (u32 (clock s - timeStart (trav m)))
                (timeDelay (trav m))) as [L | L].
    + apply completes_later; unfold call;
        rewrite traverse_wait_hold by auto; cbn [fst snd];
        [reflexivity | apply IH; lia].
    + apply completes_now. unfold call.
      rewrite traverse_waitdelay_exit by assumption. reflexivity.
Qed.

Lemma wait_trans_completes (m : machine) :
  state (trav m) = S_WAITTRANS -> timeDelay (trav m) <= WAIT_DELAY ->
  (forall s : nat, completes_from clock s d (with_state S_LOOP m)) ->
  forall s : nat, completes_from clock s d m.
Proof.
  intros St TD Next s.
  destruct (ticking s (timeStart (trav m))) as (k & Hk & E).
  remember (k - s)%nat as gap eqn:G.
  revert s Hk G. induction gap as [| gap IH]; intros s Hk G.
  - assert (k = s) by lia. subst k.
    apply completes_later; unfold call;
      rewrite traverse_waittrans_exit by (assumption || lia); cbn [fst snd];
      [reflexivity | apply Next].
  - destruct (Z_lt_le_dec (u32 (clock s - timeStart (trav m)))
                (timeDelay (trav m))) as [L | L].
    + apply completes_later; unfold call;
        rewrite traverse_wait_hold by auto; cbn [fst snd];
        [reflexivity | apply IH; lia].
    + apply completes_later; unfold call;
        rewrite traverse_waittrans_exit by assumption; cbn [fst snd];
        [reflexivity | apply Next].
Qed.

Lemma loop_completes (j : nat) :
  forall m : machine,
    state (trav m) = S_LOOP -> 0 <= idx (trav m) ->
    Z.to_nat (MAX_RGB_VALUE - MIN_RGB_VALUE - idx (trav m)) = j ->
    forall s : nat, completes_from clock s d m.
Proof.
  unfold MAX_RGB_VALUE, MIN_RGB_VALUE.
  induction j as [| j IH]; intros m St I0 J s.
  - apply completes_later; unfold call;
      rewrite traverse_loop_end
        by (assumption || (unfold MAX_RGB_VALUE, MIN_RGB_VALUE; lia));
      cbn [fst snd]; [reflexivity |].
    apply wait_delay_completes; cbn; [reflexivity | lia].
  - apply completes_later; unfold call;
      rewrite traverse_loop_step
        by (assumption || (unfold MAX_RGB_VALUE, MIN_RGB_VALUE; lia));
      cbn [fst snd]; [reflexivity |].
    apply wait_trans_completes;
      [reflexivity | cbn; unfold TRANSITION_DELAY, WAIT_DELAY; lia |].
    apply IH; cbn [with_state trav state idx]; [reflexivity | |];
      rewrite u16_small by lia; lia.
Qed.

Lemma session_completes (m : machine) :
  nonzero d -> state (trav m) = S_INIT ->
  exists (n : nat) (m' : machine),
    run_session (readings clock n) d m = Some m'.
Proof.
  intros N St. change (completes_from clock 0 d m).
  rewrite (triple_eta d) in N.
  apply completes_later; unfold call;
    rewrite traverse_init by assumption; cbn [fst snd];
    [reflexivity |].
  eapply loop_completes; cbn [trav state idx]; [reflexivity | lia | reflexivity].
Qed.

End Completion.

(** ** Walking one axis *)

Lemma position_axes (d : Z * Z * Z) (c : coord) (k : nat) :
  position d c k =
  mkCoord (Nat.iter k (fun t => u8 (t + fst (fst d))) (x c))
          (Nat.iter k (fun t => u8 (t + snd (fst d))) (y c))
          (Nat.iter k (fun t => u8 (t + snd d)) (z c)).
Proof.
  destruct d as [[a b] e]. cbn [fst snd].
  induction k as [| k IH].
  - destruct c. reflexivity.
  - change (position (a, b, e) c (S k))
      with (advance (a, b, e) (position (a, b, e) c k)).
    rewrite IH. reflexivity.
Qed.

Lemma axis_walk (p q : Z) (k : nat) :
  p = 0 \/ p = 1 -> q = 0 \/ q = 1 -> (k <= STEPS)%nat ->
  Nat.iter k (fun t => u8 (t + (q - p))) (level p)
  = level p + Z.of_nat k * (q - p).
Proof.
  intros Hp Hq. pose proof STEPS_val as SV.
  unfold MAX_RGB_VALUE, MIN_RGB_VALUE in SV.
  induction k as [| k IH]; intros Hk.
  - unfold Nat.iter. cbn [nat_rect]. lia.
  - rewrite Nat.iter_succ, IH by lia.
    rewrite u8_small.
    + lia.
    + destruct Hp as [-> | ->]; destruct Hq as [-> | ->];
        change (level 0) with 10; change (level 1) with 255; lia.
Qed.

Lemma axis_arrival (p q : Z) :
  p = 0 \/ p = 1 -> q = 0 \/ q = 1 ->
  level p + Z.of_nat STEPS * (q - p) = level q.
Proof.
  intros [-> | ->] [-> | ->]; reflexivity.
Qed.

Lemma deltas_some (A B : Z) (a b : coord) :
  vertex_at A = Some a -> vertex_at B = Some b ->
  deltas A B = Some (x b - x a, y b - y a, z b - z a).
Proof. intros Ha Hb. unfold deltas. rewrite Ha, Hb. reflexivity. Qed.

Lemma deltas_nonzero (A B : Z) (a b : coord) :
  vertex_at A = Some a -> vertex_at B = Some b -> A <> B ->
  nonzero (x b - x a, y b - y a, z b - z a).
Proof.
  intros Ha Hb N E. apply N.
  apply (vertex_injective A B a b Ha Hb).
  injection E as Ex Ey Ez.
  destruct a as [ax ay az], b as [bx b_y bz]. cbn in *.
  f_equal; lia.
Qed.

Lemma vertex_position (A B : Z) (a b : coord) (k : nat) :
  vertex_at A = Some a -> vertex_at B = Some b -> (k <= STEPS)%nat ->
  position (x b - x a, y b - y a, z b - z a) (materialize a) k
  = mkCoord (level (x a) + Z.of_nat k * (x b - x a))
            (level (y a) + Z.of_nat k * (y b - y a))
            (level (z a) + Z.of_nat k * (z b - z a)).
Proof.
  intros Ha Hb Hk.
  destruct (vertex_boolean _ _ Ha) as (ax & ay & az).
  destruct (vertex_boolean _ _ Hb) as (bx & b_y & bz).
  rewrite position_axes. cbn [fst snd materialize x y z].
  rewrite !axis_walk by assumption. reflexivity.
Qed.

Lemma vertex_arrival (A B : Z) (a b : coord) :
  vertex_at A = Some a -> vertex_at B = Some b ->
  position (x b - x a, y b - y a, z b - z a) (materialize a) STEPS
  = materialize b.
Proof.
  intros Ha Hb. rewrite (vertex_position A B) by (assumption || lia).
  destruct (vertex_boolean _ _ Ha) as (ax & ay & az).
  destruct (vertex_boolean _ _ Hb) as (bx & b_y & bz).
  rewrite !axis_arrival by assumption. reflexivity.
Qed.

(** ** Reading the sink back *)

Lemma skipn_length_app {T : Type} (l l' : list T) :
  skipn (length l) (l ++ l') = l'.
Proof. induction l as [| h l IH]; [reflexivity | exact IH]. Qed.

Lemma frames_flat_map (l : list coord) :
  frames (flat_map frame_events l) = l.
Proof.
  induction l as [| c l IH]; [reflexivity |].
  destruct c as [cx cy cz]. cbn [flat_map frame_events app x y z frames].
  rewrite !Z.eqb_refl. cbn [andb]. rewrite IH. reflexivity.
Qed.

Lemma flat_events_length (l : list coord) :
  length (flat_map frame_events l) = (3 * length l)%nat.
Proof.
  induction l as [| c l IH]; [reflexivity |].
  cbn [flat_map frame_events app length]. rewrite IH. lia.
Qed.

Lemma session_writes_progress (d : Z * Z * Z) (m0 m : machine) (k : nat) :
  progress d m0 m k -> session_writes m0 m = trail d (v m0) k.
Proof.
  intros (_ & _ & _ & Hs). unfold session_writes.
  rewrite Hs, skipn_length_app. apply frames_flat_map.
Qed.

Lemma reach_position (d : Z * Z * Z) (m0 : machine) (done : bool)
  (m : machine) :
  nonzero d -> state (trav m0) = S_INIT ->
  session_reach d m0 done m ->
  exists k : nat, (k <= STEPS)%nat /\ v m = position d (v m0) k.
Proof.
  intros N H0 R. apply session_reach_inv in R; [| assumption | assumption].
  destruct done.
  - destruct R as (_ & _ & _ & Hv & _). exists STEPS. split; [lia | exact Hv].
  - destruct R as [-> | (k & Hk & (_ & _ & Hv & _) & _)].
    + exists 0%nat. split; [lia | reflexivity].
    + exists k. split; assumption.
Qed.

Lemma reach_idle (m0 : machine) (done : bool) (m : machine) :
  state (trav m0) = S_INIT ->
  session_reach (0, 0, 0) m0 done m -> m = m0.
Proof.
  intros H0 R. induction R as [| now m R IH].
  - reflexivity.
  - subst m. cbn [fst snd]. rewrite traverse_idle by assumption. reflexivity.
Qed.

(** ** Outcome of a session *)

Lemma session_outcome_intro (d : Z * Z * Z) (m : machine)
  (Q : machine -> Prop) :
  nonzero d -> state (trav m) = S_INIT ->
  (forall m' : machine,
      state (trav m') = S_INIT -> progress d m m' STEPS -> Q m') ->
  session_outcome d m Q.
Proof.
  intros N H0 HQ. split.
  - intros clock m' E.
    destruct (run_session_inv d m m' clock N H0 E) as [S1 P].
    apply HQ; assumption.
  - intros clock T.
    destruct (session_completes clock d T m N H0) as (n & m' & E).
    exists n, m'. split; [exact E |].
    destruct (run_session_inv d m m' _ N H0 E) as [S1 P].
    apply HQ; assumption.
Qed.

Lemma steady_clock_passes : time_passes steady_clock.
Proof.
  intros n t. unfold steady_clock, WAIT_DELAY, u32.
  set (M := 2 ^ 32).
  assert (HM : M = 4294967296) by reflexivity.
  pose proof (Z.mod_pos_bound (500 * Z.of_nat n - t) M ltac:(lia)) as R.
  destruct (Z_lt_le_dec ((500 * Z.of_nat n - t) mod M) 500) as [L | L].
  - exists (S n). split; [lia |].
    replace (500 * Z.of_nat (S n) - t) with ((500 * Z.of_nat n - t) + 500)
      by lia.
    rewrite <- Z.add_mod_idemp_l by lia.
    rewrite Z.mod_small by lia. lia.
  - exists n. split; [lia | exact L].
Qed.

Lemma setup_power_on : setup = Some power_on.
Proof. reflexivity. Qed.

Lemma trail_nth (d : Z * Z * Z) (c dflt : coord) (n j : nat) :
  (j < n)%nat -> nth j (trail d c n) dflt = position d c j.
Proof.
  intros H. unfold trail.
  rewrite (nth_indep _ dflt (position d c 0))
    by (rewrite length_map, length_seq; exact H).
  rewrite (map_nth (position d c) (seq 0 n) 0%nat j).
  rewrite seq_nth by exact H. reflexivity.
Qed.

Lemma trail_last (d : Z * Z * Z) (c dflt : coord) (n : nat) :
  last (trail d c (S n)) dflt = position d c n.
Proof. rewrite trail_S. apply last_last. Qed.

(** ** [run_session] is what [loop] does while it animates *)

Lemma animate_is_session (RANDOM_DISPLAY : bool) (d : Z * Z * Z)
  (l : Loop.statics) (clock : list Z) :
  Loop.state l = Loop.S_ANIMATE ->
  deltas (Loop.v1 l) (Loop.v2 l) = Some d ->
  forall m m' : machine,
    run_session clock d m = Some m' ->
    exists used rest : list Z,
      clock = used ++ rest
      /\ loop_all RANDOM_DISPLAY used (l, m)
         = Some (Loop.mkStatics Loop.S_LOOP (Loop.v1 l) (Loop.v2 l) (Loop.i l),
                 m').
Proof.
  intros Hs Hd. destruct d as [[a b] c].
  induction clock as [| now rest IH]; intros m m' E; [discriminate |].
  cbn [run_session] in E.
  destruct (traverse now a b c m) as [done m1] eqn:T.
  assert (L : loop RANDOM_DISPLAY now (l, m)
              = Some (if done
                      then Loop.mkStatics Loop.S_LOOP (Loop.v1 l) (Loop.v2 l)
                             (Loop.i l)
                      else l, m1)).
  { unfold loop. rewrite Hs, Hd, T. reflexivity. }
  destruct done.
  - injection E as <-. exists [now], rest. split; [reflexivity |].
    cbn [loop_all]. rewrite L. reflexivity.
  - destruct (IH m1 m' E) as (used & rest' & -> & R).
    exists (now :: used), rest'. split; [reflexivity |].
    cbn [loop_all]. rewrite L. exact R.
Qed.

(** * The traversal engine: claims *)

(** C1. A session from vertex [A] to a different vertex [B], started with
    the coordinate at the materialized [A], has the coordinate at the
    materialized [B] on all three axes when [traverse] reports completion;
    and it does report completion when time passes. *)
Theorem traverse_reaches_target (A B : Z) (a b : coord) (d : Z * Z * Z)
  (m : machine) :
  vertex_at A = Some a -> vertex_at B = Some b -> A <> B ->
  deltas A B = Some d ->
  state (trav m) = S_INIT -> v m = materialize a ->
  session_outcome d m (fun m' => v m' = materialize b).
Proof.
  intros Ha Hb N Hd H0 Hv.
  rewrite (deltas_some A B a b Ha Hb) in Hd. injection Hd as <-.
  apply session_outcome_intro;
    [eapply deltas_nonzero; eassumption | exact H0 |].
  intros m' _ (_ & _ & Hv' & _).
  rewrite Hv', Hv. eapply vertex_arrival; eassumption.
Qed.

Lemma traverse_reaches_target_witness :
  time_passes steady_clock
  /\ exists (n : nat) (m' : machine),
       run_session (readings steady_clock n) (1, 1, 1) power_on = Some m'
       /\ v m' = mkCoord 255 255 255.
Proof.
  split; [exact steady_clock_passes |].
  refine (proj2 (traverse_reaches_target 0 7 (mkCoord 0 0 0) (mkCoord 1 1 1)
                   (1, 1, 1) power_on eq_refl eq_refl _ eq_refl eq_refl eq_refl)
            steady_clock steady_clock_passes).
  discriminate.
Defined.




(** C3. A session with deltas that are not all zero pushes exactly
    [MAX_RGB_VALUE - MIN_RGB_VALUE] = 245 triples to the PWM channels
    between its start and its completion report: the sink grows by the
    red, green and blue events of 245 triples, 735 events in all, and by
    nothing else. *)
Theorem session_write_count (d : Z * Z * Z) (m : machine) :
  nonzero d -> state (trav m) = S_INIT ->
  session_outcome d m
    (fun m' =>
       exists w : list coord,
         pushed m m' w
         /\ Z.of_nat (length w) = MAX_RGB_VALUE - MIN_RGB_VALUE
         /\ length w = 245%nat
         /\ length (sink m') = (length (sink m) + 3 * 245)%nat).
Proof.
  intros N H0. apply session_outcome_intro; [exact N | exact H0 |].
  intros m' _ (_ & _ & _ & Hs).
  exists (trail d (v m) STEPS).
  split; [exact Hs |].
  rewrite Hs, length_app, flat_events_length, trail_length.
  repeat split; reflexivity.
Qed.

Lemma session_write_count_witness :
  nonzero (0, -1, 1)
  /\ exists (n : nat) (m' : machine) (w : list coord),
       run_session (readings steady_clock n) (0, -1, 1) power_on = Some m'
       /\ sink m' = flat_map frame_events w
       /\ length w = 245%nat
       /\ length (sink m') = 735%nat.
Proof.
  assert (N : nonzero (0, -1, 1)) by discriminate.
  split; [exact N |].
  destruct (proj2 (session_write_count (0, -1, 1) power_on N eq_refl)
              steady_clock steady_clock_passes)
    as (n & m' & E & w & P & _ & L & K).
  exists n, m', w. auto.
Defined.

(** C8. Called in [S_INIT] with all three deltas zero, [traverse] returns
    [true] on that call, writes nothing to the sink and leaves the
    coordinate and its own statics as they were. *)
Theorem idle_zero_delta_noop (now : Z) (m : machine) :
  state (trav m) = S_INIT ->
  fst (traverse now 0 0 0 m) = true
  /\ sink (snd (traverse now 0 0 0 m)) = sink m
  /\ v (snd (traverse now 0 0 0 m)) = v m
  /\ trav (snd (traverse now 0 0 0 m)) = trav m.
Proof.
  intros H. rewrite traverse_idle by exact H. cbn [fst snd]. auto.
Qed.

Lemma idle_zero_delta_noop_witness :
  state (trav power_on) = S_INIT
  /\ fst (traverse 1234 0 0 0 power_on) = true
  /\ sink (snd (traverse 1234 0 0 0 power_on)) = []
  /\ v (snd (traverse 1234 0 0 0 power_on)) = mkCoord 10 10 10
  /\ trav (snd (traverse 1234 0 0 0 power_on)) = Traverse.initial.
Proof.
  split; [reflexivity |].
  exact (idle_zero_delta_noop 1234 power_on eq_refl).
Defined.

(** C4, as the code has it. From vertex 0, shown as (10,10,10), to vertex 7
    the session pushes 245 triples and nothing else: the first is
    (10,10,10), each next one is one more on every axis, and the last is
    (254,254,254), whose three events end the sink. Each step writes the
    coordinate before moving it, so the coordinate ends at (255,255,255)
    without that value being written within the session. *)
Theorem vertex0_to_vertex7_writes (d : Z * Z * Z) (m : machine) :
  deltas 0 7 = Some d ->
  state (trav m) = S_INIT -> v m = mkCoord 10 10 10 ->
  session_outcome d m
    (fun m' =>
       exists w : list coord,
         pushed m m' w
         /\ length w = 245%nat
         /\ nth 0 w (v m) = mkCoord 10 10 10
         /\ (forall j : nat,
               (S j < 245)%nat ->
               nth (S j) w (v m)
               = mkCoord (x (nth j w (v m)) + 1) (y (nth j w (v m)) + 1)
                         (z (nth j w (v m)) + 1))
         /\ last w (v m) = mkCoord 254 254 254
         /\ (exists before : list pwm_write,
               sink m'
               = before ++ [(R_PIN, 254); (G_PIN, 254); (B_PIN, 254)])
         /\ v m' = mkCoord 255 255 255).
Proof.
  intros Hd H0 Hv. injection Hd as <-.
  assert (Pos : forall k : nat,
             (k <= STEPS)%nat ->
             position (1, 1, 1) (v m) k
             = mkCoord (10 + Z.of_nat k * 1) (10 + Z.of_nat k * 1)
                       (10 + Z.of_nat k * 1)).
  { intros k Hk. rewrite Hv.
    exact (vertex_position 0 7 (mkCoord 0 0 0) (mkCoord 1 1 1) k
             eq_refl eq_refl Hk). }
  apply session_outcome_intro; [discriminate | exact H0 |].
  intros m' _ (_ & _ & Hv' & Hs).
  exists (trail (1, 1, 1) (v m) STEPS).
  split; [exact Hs |].
  change 245%nat with STEPS.
  split; [apply trail_length |].
  split; [rewrite trail_nth, Pos by (unfold STEPS; simpl; lia); reflexivity |].
  split.
  - intros j Hj.
    rewrite !trail_nth, !Pos by lia. cbn [x y z]. f_equal; lia.
  - split; [| split].
    + change STEPS with (S 244).
      rewrite trail_last, Pos by (change STEPS with 245%nat; lia).
      reflexivity.
    + exists (sink m ++ flat_map frame_events (trail (1, 1, 1) (v m) 244)).
      rewrite Hs. change STEPS with (S 244).
      rewrite trail_S, flat_map_app, app_assoc.
      rewrite Pos by (change STEPS with 245%nat; lia). reflexivity.
    + rewrite Hv', Pos by lia. reflexivity.
Qed.

Lemma vertex0_to_vertex7_writes_witness :
  deltas 0 7 = Some (1, 1, 1)
  /\ exists (n : nat) (m' : machine) (w : list coord),
       run_session (readings steady_clock n) (1, 1, 1) power_on = Some m'
       /\ sink m' = flat_map frame_events w
       /\ length w = 245%nat
       /\ last w (v power_on) = mkCoord 254 254 254
       /\ (exists before : list pwm_write,
             sink m' = before ++ [(3, 254); (5, 254); (6, 254)])
       /\ v m' = mkCoord 255 255 255.
Proof.
  split; [reflexivity |].
  destruct (proj2 (vertex0_to_vertex7_writes (1, 1, 1) power_on
                     eq_refl eq_refl eq_refl)
              steady_clock steady_clock_passes)
    as (n & m' & E & w & P & Len & _ & _ & L & B & V).
  exists n, m', w. auto 10.
Defined.

(** C4 as stated fails: polled every 500 ms, the session from vertex 0 to
    vertex 7 ends at the 493rd call, and the last triple it has pushed is
    (254,254,254), not (255,255,255): the sink holds 735 events and ends
    with 254 on the red, the green and the blue pin. *)
Lemma final_write_short_of_vertex7 :
  deltas 0 7 = Some (1, 1, 1)
  /\ setup = Some power_on
  /\ exists m' : machine,
       run_session (readings steady_clock 493) (1, 1, 1) power_on = Some m'
       /\ length (session_writes power_on m') = 245%nat
       /\ last (session_writes power_on m') (v power_on)
          <> mkCoord 255 255 255
       /\ length (sink m') = 735%nat
       /\ skipn 732 (sink m') = [(R_PIN, 254); (G_PIN, 254); (B_PIN, 254)].
Proof.
  split; [reflexivity |]. split; [reflexivity |].
  eexists. split; [vm_compute; reflexivity |].
  split; [vm_compute; reflexivity |].
  split; [vm_compute; discriminate |].
  split; vm_compute; reflexivity.
Qed.

(** ** The coordinate stays on the edge being traversed *)

Lemma on_segmentb_intro (p q c : coord) (k : nat) :
  (k <= STEPS)%nat ->
  (MAX_RGB_VALUE - MIN_RGB_VALUE) * x c
  = (MAX_RGB_VALUE - MIN_RGB_VALUE - Z.of_nat k) * x p + Z.of_nat k * x q ->
  (MAX_RGB_VALUE - MIN_RGB_VALUE) * y c
  = (MAX_RGB_VALUE - MIN_RGB_VALUE - Z.of_nat k) * y p + Z.of_nat k * y q ->
  (MAX_RGB_VALUE - MIN_RGB_VALUE) * z c
  = (MAX_RGB_VALUE - MIN_RGB_VALUE - Z.of_nat k) * z p + Z.of_nat k * z q ->
  on_segmentb p q c = true.
Proof.
  intros Hk Ex Ey Ez. unfold on_segmentb. apply existsb_exists.
  exists k. split; [apply in_seq; lia |].
  rewrite !andb_true_iff, !Z.eqb_eq. auto.
Qed.

Lemma axis_on_segment (p q : Z) (k : nat) :
  p = 0 \/ p = 1 -> q = 0 \/ q = 1 ->
  (MAX_RGB_VALUE - MIN_RGB_VALUE) * (level p + Z.of_nat k * (q - p))
  = (MAX_RGB_VALUE - MIN_RGB_VALUE - Z.of_nat k) * level p
    + Z.of_nat k * level q.
Proof.
  unfold MAX_RGB_VALUE, MIN_RGB_VALUE.
  intros [-> | ->] [-> | ->];
    change (level 0) with 10; change (level 1) with 255; lia.
Qed.

(** C9. Every machine a session from vertex [A] to vertex [B] passes
    through, the completion report included, has its coordinate on the
    closed segment between the materialized [A] and the materialized [B]. *)
Theorem coordinate_on_segment (A B : Z) (a b : coord) (d : Z * Z * Z)
  (m0 : machine) (done : bool) (m : machine) :
  vertex_at A = Some a -> vertex_at B = Some b ->
  deltas A B = Some d ->
  state (trav m0) = S_INIT -> v m0 = materialize a ->
  session_reach d m0 done m ->
  on_segmentb (materialize a) (materialize b) (v m) = true.
Proof.
  intros Ha Hb Hd H0 Hv R.
  rewrite (deltas_some A B a b Ha Hb) in Hd. injection Hd as <-.
  destruct (vertex_boolean _ _ Ha) as (ax & ay & az).
  destruct (vertex_boolean _ _ Hb) as (bx & b_y & bz).
  destruct (Z.eq_dec A B) as [E | N].
  - subst B. rewrite Ha in Hb. injection Hb as <-.
    rewrite !Z.sub_diag in R.
    apply reach_idle in R; [| exact H0]. subst m. rewrite Hv.
    apply (on_segmentb_intro _ _ _ 0); [lia | | |];
      cbn [materialize x y z]; lia.
  - destruct (reach_position _ m0 done m
                (deltas_nonzero A B a b Ha Hb N) H0 R) as (k & Hk & Hp).
    rewrite Hp, Hv, (vertex_position A B) by assumption.
    apply (on_segmentb_intro _ _ _ k); [exact Hk | | |];
      cbn [materialize x y z]; apply axis_on_segment; assumption.
Qed.

Lemma coordinate_on_segment_witness :
  v (invoke_all [0; 0] (1, 0, -1)
       (mkMachine (mkCoord 10 10 255) Traverse.initial []))
  = mkCoord 11 10 254
  /\ on_segmentb (mkCoord 10 10 255) (mkCoord 255 10 10)
       (v (invoke_all [0; 0] (1, 0, -1)
             (mkMachine (mkCoord 10 10 255) Traverse.initial [])))
     = true.
Proof.
  pose (d := (1, 0, -1)).
  pose (m0 := mkMachine (mkCoord 10 10 255) Traverse.initial []).
  pose (m1 := snd (traverse 0 1 0 (-1) m0)).
  pose (m2 := snd (traverse 0 1 0 (-1) m1)).
  assert (R1 : session_reach d m0 false m1)
    by exact (reach_call d m0 0 m0 (reach_start d m0)).
  assert (R2 : session_reach d m0 false m2)
    by exact (reach_call d m0 0 m1 R1).
  split; [reflexivity |].
  exact (coordinate_on_segment 1 5 (mkCoord 0 0 1) (mkCoord 1 0 0) d
           m0 false m2 eq_refl eq_refl eq_refl eq_refl eq_refl R2).
Defined.

(** ** After the completion report *)

Lemma traverse_true_idle (now a b c : Z) (m : machine) :
  fst (traverse now a b c m) = true ->
  state (trav (snd (traverse now a b c m))) = S_INIT.
Proof.
  unfold traverse.
  destruct (state_eqb (state (trav m)) S_INIT && (a =? 0) && (b =? 0)
            && (c =? 0)) eqn:T; cbn [fst snd].
  - intros _. rewrite !andb_true_iff in T.
    destruct T as [[[T _] _] _].
    destruct (state (trav m)); (reflexivity || discriminate).
  - match goal with
    | |- state_eqb (state (trav ?m')) S_INIT = true -> _ =>
        destruct (state (trav m')); (reflexivity || discriminate)
    end.
Qed.

Lemma run_session_ends_idle (clock : list Z) (d : Z * Z * Z) :
  forall m m' : machine,
    run_session clock d m = Some m' -> state (trav m') = S_INIT.
Proof.
  destruct d as [[a b] c].
  induction clock as [| now rest IH]; intros m m' E; [discriminate |].
  cbn [run_session] in E.
  pose proof (traverse_true_idle now a b c m) as T.
  destruct (traverse now a b c m) as [done m1]. cbn [fst snd] in T.
  destruct done.
  - injection E as <-. apply T. reflexivity.
  - eapply IH. exact E.
Qed.

Lemma first_call_keeps_coordinate (now a b c : Z) (m : machine) :
  state (trav m) = S_INIT -> v (snd (traverse now a b c m)) = v m.
Proof.
  intros H. unfold traverse. rewrite H. cbn [state_eqb andb].
  destruct ((a =? 0) && (b =? 0) && (c =? 0)); reflexivity.
Qed.

Lemma invoke_all_idle (clock : list Z) (m : machine) :
  state (trav m) = S_INIT -> invoke_all clock (0, 0, 0) m = m.
Proof.
  intros H. unfold invoke_all. cbn [fst snd].
  induction clock as [| now rest IH]; [reflexivity |].
  cbn [fold_left]. rewrite traverse_idle by exact H. exact IH.
Qed.

(** C10, as the code has it. Once a session has reported completion,
    [traverse] is back in [S_INIT] and keeps no memory of having finished.
    Further calls with all-zero deltas, any number of them, leave the
    coordinate alone, and so does one further call with the deltas of the
    session, which only arms a new session. *)
Theorem post_completion_coordinate (clock : list Z) (d : Z * Z * Z)
  (m m' : machine) :
  run_session clock d m = Some m' ->
  (forall extra : list Z, v (invoke_all extra (0, 0, 0) m') = v m')
  /\ (forall now : Z, v (invoke_all [now] d m') = v m').
Proof.
  intros E. pose proof (run_session_ends_idle clock d m m' E) as H.
  split.
  - intros extra. rewrite invoke_all_idle by exact H. reflexivity.
  - intros now. unfold invoke_all. cbn [fold_left].
    apply first_call_keeps_coordinate. exact H.
Qed.

Lemma post_completion_coordinate_witness :
  exists m' : machine,
    run_session (readings steady_clock 493) (1, 1, 1) power_on = Some m'
    /\ v m' = mkCoord 255 255 255
    /\ v (invoke_all [8; 9; 10] (0, 0, 0) m') = mkCoord 255 255 255
    /\ v (invoke_all [8] (1, 1, 1) m') = mkCoord 255 255 255.
Proof.
  eexists. split; [vm_compute; reflexivity |].
  match goal with
  | |- v ?M = _ /\ _ =>
      assert (E : run_session (readings steady_clock 493) (1, 1, 1) power_on
                  = Some M) by (vm_compute; reflexivity);
      assert (V : v M = mkCoord 255 255 255) by reflexivity
  end.
  destruct (post_completion_coordinate _ _ _ _ E) as [Z0 Same].
  split; [exact V |].
  split; [rewrite Z0 | rewrite Same]; exact V.
Defined.

(** C10 as stated fails: after the session from vertex 0 to vertex 7 has
    reported completion with the coordinate at (255,255,255), two more calls
    with the same deltas write once and move the coordinate, which wraps to
    (0,0,0). *)
Lemma extra_invocations_move_coordinate :
  exists m' : machine,
    run_session (readings steady_clock 493) (1, 1, 1) power_on = Some m'
    /\ v m' = mkCoord 255 255 255
    /\ v (invoke_all [0; 0] (1, 1, 1) m') = mkCoord 0 0 0
    /\ v (invoke_all [0; 0] (1, 1, 1) m') <> v m'.
Proof.
  eexists. split; [vm_compute; reflexivity |].
  split; [reflexivity |].
  split; [vm_compute; reflexivity | vm_compute; discriminate].
Qed.

(** * The random selector *)

Lemma decimal_digit_shift (n : Z) (k : nat) :
  0 <= n -> decimal_digit (n / 10) k = decimal_digit n (S k).
Proof.
  intros H. unfold decimal_digit.
  rewrite Nat2Z.inj_succ, Z.pow_succ_r by lia.
  rewrite Z.div_div by lia. reflexivity.
Qed.

Lemma digits_shift (n : Z) (k : nat) :
  0 <= n ->
  map (decimal_digit (n / 10)) (seq 0 k) = map (decimal_digit n) (seq 1 k).
Proof.
  intros H. rewrite <- seq_shift, map_map.
  apply map_ext. intros j. apply decimal_digit_shift. exact H.
Qed.

Lemma digits_bound (n : Z) (l : list nat) :
  0 <= fold_right Z.add 0 (map (decimal_digit n) l)
  <= 9 * Z.of_nat (length l).
Proof.
  induction l as [| j l IH]; [simpl; lia |].
  cbn [map fold_right length].
  assert (0 <= decimal_digit n j < 10)
    by (unfold decimal_digit; apply Z.mod_pos_bound; lia).
  lia.
Qed.

(** The loop adds the digits of [n] to [r], least significant first. *)
Lemma digit_loop_sum (k : nat) :
  forall n r : Z,
    0 <= n < 10 ^ Z.of_nat k -> 0 <= r ->
    r + 9 * Z.of_nat k < 65536 ->
    digit_loop n r
    = r + fold_right Z.add 0 (map (decimal_digit n) (seq 0 k)).
Proof.
  induction k as [| k IH]; intros n r Hn Hr Hk.
  - assert (n = 0) by (simpl in Hn; lia). subst n.
    simp digit_loop. cbn. lia.
  - rewrite digit_loop_equation_1.
    destruct (Z_gt_dec n 0) as [P | P]; cbn [digit_loop_unfold_clause_1].
    + rewrite Z.quot_div_nonneg, Z.rem_mod_nonneg by lia.
      assert (0 <= n mod 10 < 10) by (apply Z.mod_pos_bound; lia).
      rewrite u16_small by lia.
      rewrite IH.
      * rewrite digits_shift by lia. cbn [seq map fold_right].
        unfold decimal_digit at 2. rewrite Z.pow_0_r, Z.div_1_r. lia.
      * split; [apply Z.div_pos; lia |].
        apply Z.div_lt_upper_bound; [lia |].
        rewrite Nat2Z.inj_succ, Z.pow_succ_r in Hn by lia. lia.
      * lia.
      * lia.
    + assert (n = 0) by lia. subst n.
      pose proof (digits_bound 0 (seq 0 (S k))) as B.
      assert (Z0 : forall l, fold_right Z.add 0 (map (decimal_digit 0) l) = 0).
      { induction l as [| j l IHl]; [reflexivity |].
        cbn [map fold_right]. rewrite IHl. unfold decimal_digit.
        rewrite Z.div_0_l by (apply Z.pow_nonzero; lia). reflexivity. }
      rewrite Z0. lia.
Qed.

(** C7. For every 32-bit value of the elapsed-time counter, [MD_Random]
    called with [MAX_VERTICES] = 8 returns the sum of the counter's decimal
    digits modulo 8, an index between 0 and 7. *)
Theorem MD_Random_digit_sum (now : Z) :
  0 <= now < 2 ^ 32 ->
  MAX_VERTICES = 8
  /\ MD_Random now MAX_VERTICES = digit_sum now mod 8
  /\ 0 <= MD_Random now MAX_VERTICES <= 7
  /\ (forall l : Loop.statics,
        exists l' : Loop.statics,
          select_vertex true now l = Some (l', None)
          /\ Loop.v1 l' = Loop.v2 l
          /\ Loop.v2 l' = digit_sum now mod 8).
Proof.
  intros H. split; [reflexivity |].
  assert (E : MD_Random now MAX_VERTICES = digit_sum now mod 8).
  { unfold MD_Random, digit_sum.
    change MAX_VERTICES with 8.
    rewrite (digit_loop_sum 10) by (simpl; lia).
    pose proof (digits_bound now (seq 0 10)) as B.
    rewrite length_seq in B.
    rewrite Z.add_0_l, Z.rem_mod_nonneg by lia.
    apply u16_small.
    pose proof (Z.mod_pos_bound
                  (fold_right Z.add 0 (map (decimal_digit now) (seq 0 10))) 8
                  ltac:(lia)).
    lia. }
  pose proof (Z.mod_pos_bound (digit_sum now) 8 ltac:(lia)) as B.
  split; [exact E |]. split; [rewrite E; lia |].
  intros l. eexists. split; [reflexivity |].
  cbn [Loop.v1 Loop.v2]. split; [reflexivity |].
  rewrite E. apply u8_small. lia.
Qed.

Lemma MD_Random_digit_sum_witness :
  0 <= 4294967295 < 2 ^ 32
  /\ MD_Random 4294967295 MAX_VERTICES = digit_sum 4294967295 mod 8
  /\ 0 <= MD_Random 4294967295 MAX_VERTICES <= 7.
Proof.
  assert (R : 0 <= 4294967295 < 2 ^ 32) by (simpl; lia).
  split; [exact R |].
  destruct (MD_Random_digit_sum 4294967295 R) as (_ & E & B & _).
  split; assumption.
Defined.

(** * The fixed-path selector *)

(** While [loop] animates, it leaves [v1], [v2] and the cursor alone:
    [path_selections] sees all that happens to them. *)
Lemma loop_animate_keeps_cursor (RANDOM_DISPLAY : bool) (now : Z)
  (l l' : Loop.statics) (m m' : machine) :
  Loop.state l = Loop.S_ANIMATE ->
  loop RANDOM_DISPLAY now (l, m) = Some (l', m') ->
  Loop.v1 l' = Loop.v1 l /\ Loop.v2 l' = Loop.v2 l /\ Loop.i l' = Loop.i l.
Proof.
  intros Hs. unfold loop. rewrite Hs.
  destruct (deltas (Loop.v1 l) (Loop.v2 l)) as [[[a b] c] |]; [| discriminate].
  destruct (traverse now a b c m) as [done m1].
  intros E. injection E as <- _. destruct done; auto.
Qed.

Lemma path_first_passes_check :
  forallb
    (fun k =>
       match path_selections k Loop.initial with
       | Some l =>
           (Loop.i l =? Z.of_nat k) && (0 <=? Loop.v2 l) && (Loop.v2 l <=? 7)
           && negb (Loop.i l >=? 2 * MAX_PATH_SIZE)
       | None => false
       end)
    (seq 0 30) = true.
Proof. vm_compute. reflexivity. Qed.

Lemma path_first_passes (k : nat) :
  (k < 30)%nat ->
  exists l : Loop.statics,
    path_selections k Loop.initial = Some l
    /\ Loop.i l = Z.of_nat k /\ 0 <= Loop.v2 l <= 7
    /\ (Loop.i l >=? 2 * MAX_PATH_SIZE) = false.
Proof.
  intros H. pose proof path_first_passes_check as C.
  rewrite forallb_forall in C.
  specialize (C k ltac:(apply in_seq; lia)).
  destruct (path_selections k Loop.initial) as [l |]; [| discriminate].
  exists l. rewrite !andb_true_iff, negb_true_iff in C.
  destruct C as [[[Ci C0] C7] Cw].
  apply Z.eqb_eq in Ci. apply Z.leb_le in C0. apply Z.leb_le in C7.
  repeat split; assumption.
Qed.

(** C5, evaluated on the code. The cursor test [i++ >= 2*MAX_PATH_SIZE]
    looks at the cursor before incrementing it. Starting from cursor 0, the
    pass number [2*MAX_PATH_SIZE] = 30 therefore enters with cursor 29, does
    not wrap and does not re-anchor, and goes on to read [path[15]], which
    the array does not have. The wrapping arm (cursor back to 0, first
    nibble of [path[0]], coordinate re-anchored to the vertex just reached)
    is only taken by a pass that enters with the cursor already at 30. *)
Theorem path_wrap_one_pass_late :
  Z.of_nat 30 = 2 * MAX_PATH_SIZE
  /\ (exists l : Loop.statics,
        path_selections 29 Loop.initial = Some l
        /\ Loop.i l = 29
        /\ (Loop.i l >=? 2 * MAX_PATH_SIZE) = false)
  /\ path_selections 30 Loop.initial = None
  /\ (forall (prev : Z) (c : coord),
        vertex_at prev = Some c ->
        next_path_vertex (2 * MAX_PATH_SIZE) prev
        = Some (0, 0, Some (materialize c))).
Proof.
  split; [reflexivity |]. split.
  - destruct (path_first_passes 29 ltac:(lia)) as (l & E & I & _ & W).
    exists l. auto.
  - split; [vm_compute; reflexivity |].
    intros prev c H. unfold next_path_vertex.
    change (2 * MAX_PATH_SIZE >=? 2 * MAX_PATH_SIZE) with true.
    cbv iota. rewrite H. reflexivity.
Qed.

(** C6, evaluated on the code. The first 29 passes read [path] within
    bounds and select vertices between 0 and 7. On the 30th pass the cursor
    becomes 30 = 2*MAX_PATH_SIZE and the table index [i>>1] is 15, one past
    the last entry [path[14]]: the read is out of bounds. *)
Theorem path_read_past_end :
  MAX_PATH_SIZE = 15
  /\ (forall k : nat,
        (k < 30)%nat ->
        exists l : Loop.statics,
          path_selections k Loop.initial = Some l
          /\ Loop.i l = Z.of_nat k /\ 0 <= Loop.v2 l <= 7)
  /\ Z.shiftr (29 + 1) 1 = MAX_PATH_SIZE
  /\ path_at (Z.shiftr (29 + 1) 1) = None
  /\ (forall prev : Z, next_path_vertex 29 prev = None)
  /\ path_selections 30 Loop.initial = None
  /\ (forall (now : Z) (l : Loop.statics) (m : machine),
        Loop.state l = Loop.S_LOOP -> Loop.i l = 29 ->
        loop false now (l, m) = None).
Proof.
  split; [reflexivity |]. split.
  - intros k H.
    destruct (path_first_passes k H) as (l & E & I & V & _).
    exists l. auto.
  - repeat split; try reflexivity.
    intros now l m Hs Hi. unfold loop, select_vertex.
    rewrite Hs, Hi. reflexivity.
Qed.

(** * The whole lamp *)

(** ** Duty cycles stay between the limits *)

Lemma vertex_at_some (k : Z) :
  0 <= k <= 7 -> exists c : coord, vertex_at k = Some c.
Proof.
  intros H.
  assert (k = 0 \/ k = 1 \/ k = 2 \/ k = 3 \/ k = 4 \/ k = 5 \/ k = 6 \/ k = 7)
    as E by lia.
  repeat (destruct E as [E | E]); subst k; eexists; reflexivity.
Qed.

Lemma axis_in_range (p q : Z) (k : nat) :
  p = 0 \/ p = 1 -> q = 0 \/ q = 1 -> (k <= STEPS)%nat ->
  MIN_RGB_VALUE <= level p + Z.of_nat k * (q - p) <= MAX_RGB_VALUE.
Proof.
  pose proof STEPS_val as SV. unfold MAX_RGB_VALUE, MIN_RGB_VALUE in *.
  intros [-> | ->] [-> | ->] Hk;
    change (level 0) with 10; change (level 1) with 255; lia.
Qed.

Lemma vertex_position_in_range (A B : Z) (a b : coord) (k : nat) :
  vertex_at A = Some a -> vertex_at B = Some b -> (k <= STEPS)%nat ->
  in_range (position (x b - x a, y b - y a, z b - z a) (materialize a) k).
Proof.
  intros Ha Hb Hk. rewrite (vertex_position A B) by assumption.
  destruct (vertex_boolean _ _ Ha) as (ax & ay & az).
  destruct (vertex_boolean _ _ Hb) as (bx & b_y & bz).
  unfold in_range. cbn [x y z].
  repeat split; apply axis_in_range; assumption.
Qed.

Lemma materialize_in_range (A : Z) (a : coord) :
  vertex_at A = Some a -> in_range (materialize a).
Proof.
  intros Ha.
  exact (vertex_position_in_range A A a a 0 Ha Ha ltac:(lia)).
Qed.

Lemma frame_events_ok (c : coord) :
  in_range c -> Forall pwm_ok (frame_events c).
Proof.
  intros (Hx & Hy & Hz). unfold frame_events.
  repeat (apply Forall_cons || apply Forall_nil);
    (split; cbn [fst snd]; [tauto | assumption]).
Qed.

Lemma trail_ok (d : Z * Z * Z) (c : coord) (n : nat) :
  (forall j : nat, (j < n)%nat -> in_range (position d c j)) ->
  Forall pwm_ok (flat_map frame_events (trail d c n)).
Proof.
  intros H. apply Forall_flat_map. apply Forall_forall.
  intros p Hp. unfold trail in Hp. apply in_map_iff in Hp.
  destruct Hp as (j & <- & Hj). apply in_seq in Hj.
  apply frame_events_ok. apply H. lia.
Qed.

(** Where a session between two vertices can be, and where it ends. *)
Lemma reach_facts (A B : Z) (a b : coord) (m0 : machine) (done : bool)
  (m : machine) :
  vertex_at A = Some a -> vertex_at B = Some b ->
  state (trav m0) = S_INIT -> v m0 = materialize a ->
  Forall pwm_ok (sink m0) ->
  session_reach (x b - x a, y b - y a, z b - z a) m0 done m ->
  in_range (v m) /\ Forall pwm_ok (sink m)
  /\ (done = true -> state (trav m) = S_INIT /\ v m = materialize b).
Proof.
  intros Ha Hb H0 Hv Hs R.
  pose proof (materialize_in_range A a Ha) as Ra.
  destruct (Z.eq_dec A B) as [E | N].
  - subst B. rewrite Ha in Hb. injection Hb as <-.
    rewrite !Z.sub_diag in R.
    apply reach_idle in R; [| exact H0]. subst m. rewrite Hv. auto.
  - pose proof (deltas_nonzero A B a b Ha Hb N) as NZ.
    assert (P : exists k : nat,
               (k <= STEPS)%nat
               /\ v m = position (x b - x a, y b - y a, z b - z a) (v m0) k
               /\ sink m
                  = sink m0
                    ++ flat_map frame_events
                         (trail (x b - x a, y b - y a, z b - z a) (v m0) k)
               /\ (done = true -> state (trav m) = S_INIT /\ k = STEPS)).
    { apply session_reach_inv in R; [| exact NZ | exact H0].
      destruct done.
      - destruct R as (Si & _ & _ & Pv & Ps).
        exists STEPS. split; [lia |]. auto.
      - destruct R as [-> | (k & Hk & (_ & _ & Pv & Ps) & _)].
        + exists 0%nat. split; [lia |]. cbn. rewrite app_nil_r.
          split; [reflexivity |]. split; [reflexivity | discriminate].
        + exists k. split; [exact Hk |]. split; [exact Pv |].
          split; [exact Ps | discriminate]. }
    destruct P as (k & Hk & Pv & Ps & Pd). rewrite Hv in Pv, Ps.
    split; [rewrite Pv; eapply vertex_position_in_range; eassumption |].
    split.
    + rewrite Ps. apply Forall_app. split; [exact Hs |].
      apply trail_ok. intros j Hj.
      eapply vertex_position_in_range; (eassumption || lia).
    + intros D. destruct (Pd D) as [Si ->]. split; [exact Si |].
      rewrite Pv. eapply vertex_arrival; eassumption.
Qed.

(** ** One scheduler pass keeps the invariant *)

Lemma lamp_inv_animate (RANDOM_DISPLAY : bool) (now : Z) (l : Loop.statics)
  (m : machine) :
  Loop.state l = Loop.S_ANIMATE -> lamp_inv (l, m) ->
  exists lm' : Loop.statics * machine,
    loop RANDOM_DISPLAY now (l, m) = Some lm' /\ lamp_inv lm'
    /\ Loop.i (fst lm') = Loop.i l.
Proof.
  intros Hs (a & b & Ha & Hb & I). rewrite Hs in I.
  destruct I as (m0 & H0 & Hv & Hk & R).
  pose proof (reach_call _ m0 now m R) as R'. cbn [fst snd] in R'.
  unfold loop. rewrite Hs, (deltas_some _ _ a b Ha Hb).
  destruct (traverse now (x b - x a) (y b - y a) (z b - z a) m)
    as [done m'] eqn:T.
  cbn [fst snd] in R'.
  eexists. split; [reflexivity |].
  destruct done; cbn [fst snd Loop.i]; (split; [| reflexivity]).
  - destruct (reach_facts _ _ a b m0 true m' Ha Hb H0 Hv Hk R')
      as (_ & Ks & D).
    destruct (D eq_refl) as [Si Vb].
    exists a, b. cbn [Loop.v1 Loop.v2 Loop.state]. auto.
  - exists a, b. rewrite Hs. split; [exact Ha |]. split; [exact Hb |].
    exists m0. auto.
Qed.

Lemma lamp_inv_select (l' : Loop.statics) (l : Loop.statics) (m : machine) :
  Loop.state l = Loop.S_LOOP -> lamp_inv (l, m) ->
  Loop.state l' = Loop.S_ANIMATE -> Loop.v1 l' = Loop.v2 l ->
  0 <= Loop.v2 l' <= 7 ->
  lamp_inv (l', m).
Proof.
  intros Hs (a & b & Ha & Hb & I) Hs' H1 H2. rewrite Hs in I.
  destruct I as (H0 & Hv & Hk).
  destruct (vertex_at_some _ H2) as (c & Hc).
  exists b, c. rewrite H1, Hs'. split; [exact Hb |]. split; [exact Hc |].
  exists m. split; [exact H0 |]. split; [exact Hv |]. split; [exact Hk |].
  apply reach_start.
Qed.

Lemma lamp_inv_select_random (now : Z) (l : Loop.statics) (m : machine) :
  Loop.state l = Loop.S_LOOP -> 0 <= now < 2 ^ 32 -> lamp_inv (l, m) ->
  exists lm' : Loop.statics * machine,
    loop true now (l, m) = Some lm' /\ lamp_inv lm'.
Proof.
  intros Hs Hn I. unfold loop. rewrite Hs. cbn [select_vertex].
  eexists. split; [reflexivity |].
  apply (lamp_inv_select _ l m Hs I); cbn [Loop.state Loop.v1 Loop.v2];
    try reflexivity.
  destruct (MD_Random_digit_sum now Hn) as (_ & _ & B & _).
  rewrite u8_small; lia.
Qed.

Lemma lamp_inv_facts (l : Loop.statics) (m : machine) :
  lamp_inv (l, m) ->
  0 <= Loop.v1 l <= 7 /\ 0 <= Loop.v2 l <= 7
  /\ in_range (v m) /\ Forall pwm_ok (sink m).
Proof.
  intros (a & b & Ha & Hb & I).
  pose proof (vertex_at_range _ _ Ha) as Ba.
  pose proof (vertex_at_range _ _ Hb) as Bb.
  split; [lia |]. split; [lia |].
  destruct (Loop.state l).
  - destruct I as (_ & Hv & Hk). rewrite Hv.
    split; [eapply materialize_in_range; eassumption | exact Hk].
  - destruct I as (m0 & Hi & Hv & Hk & R).
    destruct (reach_facts _ _ a b m0 false m Ha Hb Hi Hv Hk R)
      as (Rv & Ks & _).
    auto.
Qed.

Lemma lamp_inv_start : lamp_inv lamp_start.
Proof.
  exists (mkCoord 0 0 0), (mkCoord 0 0 0).
  repeat split; constructor.
Qed.

Lemma lamp_inv_random_all (clock : list Z) :
  Forall (fun t => 0 <= t < 2 ^ 32) clock ->
  forall lm : Loop.statics * machine,
    lamp_inv lm ->
    exists lm' : Loop.statics * machine,
      loop_all true clock lm = Some lm' /\ lamp_inv lm'.
Proof.
  induction 1 as [| now rest Hn _ IH]; intros [l m] I.
  - exists (l, m). split; [reflexivity | exact I].
  - assert (S1 : exists lm1, loop true now (l, m) = Some lm1 /\ lamp_inv lm1).
    { destruct (Loop.state l) eqn:Hs.
      - apply lamp_inv_select_random; assumption.
      - destruct (lamp_inv_animate true now l m Hs I) as (lm1 & E & I1 & _).
        exists lm1. auto. }
    destruct S1 as (lm1 & E & I1).
    destruct (IH lm1 I1) as (lm' & E' & I').
    exists lm'. cbn [loop_all]. rewrite E. auto.
Qed.

(** ** The packed path *)

Lemma path_decode_check :
  forallb
    (fun n =>
       match next_path_vertex (Z.of_nat n) 0 with
       | Some (i', nv, None) =>
           (i' =? Z.of_nat n + 1) && (nv =? nth (S n) path_nibbles (-1))
           && (0 <=? nv) && (nv <=? 7)
       | _ => false
       end)
    (seq 0 29) = true.
Proof. vm_compute. reflexivity. Qed.

Lemma next_path_vertex_no_wrap (cur prev : Z) :
  cur < 2 * MAX_PATH_SIZE ->
  next_path_vertex cur prev = next_path_vertex cur 0.
Proof.
  intros H. unfold next_path_vertex.
  destruct (Z.geb_spec cur (2 * MAX_PATH_SIZE)); [lia | reflexivity].
Qed.

Lemma path_decode (cur prev : Z) :
  0 <= cur < 29 ->
  next_path_vertex cur prev
  = Some (cur + 1, nth (Z.to_nat (cur + 1)) path_nibbles (-1), None)
  /\ 0 <= nth (Z.to_nat (cur + 1)) path_nibbles (-1) <= 7.
Proof.
  intros H.
  rewrite next_path_vertex_no_wrap by (change (2 * MAX_PATH_SIZE) with 30; lia).
  pose proof path_decode_check as C. rewrite forallb_forall in C.
  specialize (C (Z.to_nat cur) ltac:(apply in_seq; lia)).
  rewrite Z2Nat.id in C by lia.
  replace (Z.to_nat (cur + 1)) with (S (Z.to_nat cur)) by lia.
  destruct (next_path_vertex cur 0) as [[[i' nv] [c |]] |]; try discriminate.
  rewrite !andb_true_iff in C. destruct C as [[[Ci Cn] C0] C7].
  apply Z.eqb_eq in Ci, Cn. apply Z.leb_le in C0, C7.
  subst i'. rewrite <- Cn. split; [reflexivity | lia].
Qed.

Lemma loop_path_overrun (now : Z) (l : Loop.statics) (m : machine) :
  Loop.state l = Loop.S_LOOP -> Loop.i l = 29 ->
  loop false now (l, m) = None.
Proof.
  intros Hs Hi. unfold loop, select_vertex. rewrite Hs, Hi. reflexivity.
Qed.

Lemma lamp_inv_select_path (now : Z) (l : Loop.statics) (m : machine) :
  Loop.state l = Loop.S_LOOP -> 0 <= Loop.i l < 29 -> lamp_inv (l, m) ->
  exists lm' : Loop.statics * machine,
    loop false now (l, m) = Some lm' /\ lamp_inv lm'
    /\ Loop.i (fst lm') = Loop.i l + 1.
Proof.
  intros Hs Hi I. unfold loop, select_vertex. rewrite Hs.
  destruct (path_decode (Loop.i l) (Loop.v2 l) Hi) as [E B]. rewrite E.
  eexists. split; [reflexivity |]. split; [| reflexivity].
  apply (lamp_inv_select _ l m Hs I); cbn [Loop.state Loop.v1 Loop.v2];
    (reflexivity || exact B).
Qed.

Lemma lamp_inv_path_all (clock : list Z) :
  forall lm lm' : Loop.statics * machine,
    lamp_inv lm -> 0 <= Loop.i (fst lm) <= 29 ->
    loop_all false clock lm = Some lm' ->
    lamp_inv lm' /\ 0 <= Loop.i (fst lm') <= 29.
Proof.
  induction clock as [| now rest IH]; intros [l m] lm' I Hi E.
  - injection E as <-. auto.
  - cbn [loop_all] in E. cbn [fst] in Hi.
    destruct (Loop.state l) eqn:Hs.
    + destruct (Z.eq_dec (Loop.i l) 29) as [E29 | N29].
      * rewrite loop_path_overrun in E by assumption. discriminate.
      * destruct (lamp_inv_select_path now l m Hs ltac:(lia) I)
          as (lm1 & E1 & I1 & C1).
        rewrite E1 in E. apply (IH lm1 lm' I1); [lia | exact E].
    + destruct (lamp_inv_animate false now l m Hs I) as (lm1 & E1 & I1 & C1).
      rewrite E1 in E. apply (IH lm1 lm' I1); [lia | exact E].
Qed.

(** * Further properties of the sketch *)

(** X1. The random build never reads outside the vertex table: whatever
    32-bit readings [millis()] returns, every pass of [loop] after [setup]
    is defined and leaves both vertex indices between 0 and 7. *)
Theorem random_lamp_indices_in_bounds (clock : list Z) :
  Forall (fun t => 0 <= t < 2 ^ 32) clock ->
  exists (l : Loop.statics) (m : machine),
    loop_all true clock lamp_start = Some (l, m)
    /\ 0 <= Loop.v1 l <= 7 /\ 0 <= Loop.v2 l <= 7.
Proof.
  intros H.
  destruct (lamp_inv_random_all clock H lamp_start lamp_inv_start)
    as ([l m] & E & I).
  destruct (lamp_inv_facts l m I) as (B1 & B2 & _).
  exists l, m. auto.
Qed.

Lemma random_lamp_indices_in_bounds_witness :
  Forall (fun t => 0 <= t < 2 ^ 32) [5; 77; 1000]
  /\ exists (l : Loop.statics) (m : machine),
       loop_all true [5; 77; 1000] lamp_start = Some (l, m)
       /\ 0 <= Loop.v1 l <= 7 /\ 0 <= Loop.v2 l <= 7.
Proof.
  assert (H : Forall (fun t => 0 <= t < 2 ^ 32) [5; 77; 1000])
    by (repeat constructor; simpl; lia).
  split; [exact H |].
  exact (random_lamp_indices_in_bounds [5; 77; 1000] H).
Defined.

(** X2. In the random build every [analogWrite] goes to one of the three
    LED pins with a duty cycle between [MIN_RGB_VALUE] and [MAX_RGB_VALUE],
    and the coordinate itself never leaves that range: the [uint8_t]
    additions of [traverse] never wrap. *)
Theorem random_lamp_duty_in_range (clock : list Z) :
  Forall (fun t => 0 <= t < 2 ^ 32) clock ->
  exists (l : Loop.statics) (m : machine),
    loop_all true clock lamp_start = Some (l, m)
    /\ in_range (v m) /\ Forall pwm_ok (sink m).
Proof.
  intros H.
  destruct (lamp_inv_random_all clock H lamp_start lamp_inv_start)
    as ([l m] & E & I).
  destruct (lamp_inv_facts l m I) as (_ & _ & R & K).
  exists l, m. auto.
Qed.

Lemma random_lamp_duty_in_range_witness :
  Forall (fun t => 0 <= t < 2 ^ 32) [5; 77; 1000; 1200]
  /\ exists (l : Loop.statics) (m : machine),
       loop_all true [5; 77; 1000; 1200] lamp_start = Some (l, m)
       /\ in_range (v m) /\ Forall pwm_ok (sink m).
Proof.
  assert (H : Forall (fun t => 0 <= t < 2 ^ 32) [5; 77; 1000; 1200])
    by (repeat constructor; simpl; lia).
  split; [exact H |].
  exact (random_lamp_duty_in_range [5; 77; 1000; 1200] H).
Defined.

(** X3. In the random build, whenever [loop] is about to select a vertex,
    [traverse] is idle and the coordinate is exactly the materialized
    vertex [v2], the one the coming session starts from. *)
Theorem random_lamp_rests_on_vertex (clock : list Z) :
  Forall (fun t => 0 <= t < 2 ^ 32) clock ->
  exists (l : Loop.statics) (m : machine),
    loop_all true clock lamp_start = Some (l, m)
    /\ (Loop.state l = Loop.S_LOOP ->
        state (trav m) = S_INIT
        /\ exists b : coord,
             vertex_at (Loop.v2 l) = Some b /\ v m = materialize b).
Proof.
  intros H.
  destruct (lamp_inv_random_all clock H lamp_start lamp_inv_start)
    as ([l m] & E & (a & b & Ha & Hb & I)).
  exists l, m. split; [exact E |].
  intros Hs. rewrite Hs in I. destruct I as (Si & Hv & _).
  split; [exact Si |]. exists b. auto.
Qed.

Lemma random_lamp_rests_on_vertex_witness :
  Forall (fun t => 0 <= t < 2 ^ 32) (5 :: readings steady_clock 493)
  /\ exists (l : Loop.statics) (m : machine),
       loop_all true (5 :: readings steady_clock 493) lamp_start
       = Some (l, m)
       /\ Loop.state l = Loop.S_LOOP /\ Loop.v2 l = 5
       /\ state (trav m) = S_INIT
       /\ v m = mkCoord 255 10 10.
Proof.
  assert (H : Forall (fun t => 0 <= t < 2 ^ 32)
                (5 :: readings steady_clock 493)).
  { constructor; [simpl; lia |]. apply Forall_forall. intros t Ht.
    unfold readings in Ht. apply in_map_iff in Ht.
    destruct Ht as (k & <- & Hk). apply in_seq in Hk.
    unfold steady_clock, WAIT_DELAY. simpl (2 ^ 32). lia. }
  split; [exact H |].
  destruct (random_lamp_rests_on_vertex _ H) as (l & m & E & K).
  assert (S1 : Loop.state l = Loop.S_LOOP /\ Loop.v2 l = 5).
  { revert E. clear. vm_compute. intros E. injection E as <- _.
    split; reflexivity. }
  destruct S1 as [Sl S5]. destruct (K Sl) as (Si & b & Hb & Hv).
  rewrite S5 in Hb. injection Hb as <-.
  exists l, m. auto.
Defined.

(** X4. In the fixed-path build, as long as the passes of [loop] are
    defined the cursor is at most 29, both vertex indices are between 0 and
    7 and every duty cycle is between the limits; and the next pass is
    defined unless it is the selection entered with the cursor at 29. *)
Theorem path_lamp_safe_until_overrun (clock : list Z) (l : Loop.statics)
  (m : machine) :
  loop_all false clock lamp_start = Some (l, m) ->
  0 <= Loop.i l <= 29
  /\ 0 <= Loop.v1 l <= 7 /\ 0 <= Loop.v2 l <= 7
  /\ in_range (v m) /\ Forall pwm_ok (sink m)
  /\ (forall now : Z,
        (Loop.state l = Loop.S_LOOP -> Loop.i l < 29) ->
        exists lm' : Loop.statics * machine,
          loop false now (l, m) = Some lm').
Proof.
  intros E.
  destruct (lamp_inv_path_all clock lamp_start (l, m) lamp_inv_start
              ltac:(cbn; lia) E) as [I Hi].
  cbn [fst] in Hi.
  destruct (lamp_inv_facts l m I) as (B1 & B2 & R & K).
  repeat (split; [assumption |]).
  intros now Hc. destruct (Loop.state l) eqn:Hs.
  - destruct (lamp_inv_select_path now l m Hs ltac:(specialize (Hc eq_refl); lia) I)
      as (lm' & E' & _).
    exists lm'. exact E'.
  - destruct (lamp_inv_animate false now l m Hs I) as (lm' & E' & _).
    exists lm'. exact E'.
Qed.

Lemma path_lamp_safe_until_overrun_witness :
  loop_all false [0; 0; 0]
    lamp_start
  = Some (Loop.mkStatics Loop.S_ANIMATE 0 1 1,
          mkMachine (mkCoord 10 10 11)
            (Traverse.mkStatics S_WAITTRANS 0 100 1 0 0 1)
            [(3, 10); (5, 10); (6, 10)])
  /\ in_range (mkCoord 10 10 11)
  /\ Forall pwm_ok [(3, 10); (5, 10); (6, 10)].
Proof.
  assert (E : loop_all false [0; 0; 0] lamp_start
              = Some (Loop.mkStatics Loop.S_ANIMATE 0 1 1,
                      mkMachine (mkCoord 10 10 11)
                        (Traverse.mkStatics S_WAITTRANS 0 100 1 0 0 1)
                        [(3, 10); (5, 10); (6, 10)]))
    by reflexivity.
  split; [exact E |].
  destruct (path_lamp_safe_until_overrun _ _ _ E) as (_ & _ & _ & R & K & _).
  split; [exact R | exact K].
Defined.

(** X5. The nibble cursor decodes [path] two vertices per byte, high
    nibble first: a selection entered with cursor [cur] below 29 moves the
    cursor to [cur + 1], does not re-anchor, and selects nibble number
    [cur + 1] of the table, a vertex between 0 and 7. Nibble 0 is the one
    selection never read before the cursor is reset. *)
Theorem path_cursor_reads_nibbles (cur prev : Z) :
  0 <= cur < 29 ->
  exists nv : Z,
    next_path_vertex cur prev = Some (cur + 1, nv, None)
    /\ nth_error path_nibbles (Z.to_nat (cur + 1)) = Some nv
    /\ 0 <= nv <= 7.
Proof.
  intros H. destruct (path_decode cur prev H) as [E B].
  exists (nth (Z.to_nat (cur + 1)) path_nibbles (-1)).
  split; [exact E |]. split; [| exact B].
  apply nth_error_nth'. change (length path_nibbles) with 30%nat. lia.
Qed.

Lemma path_cursor_reads_nibbles_witness :
  0 <= 7 < 29
  /\ exists nv : Z,
       next_path_vertex 7 4 = Some (8, nv, None)
       /\ nth_error path_nibbles 8 = Some nv /\ 0 <= nv <= 7.
Proof.
  assert (H : 0 <= 7 < 29) by lia.
  split; [exact H |].
  exact (path_cursor_reads_nibbles 7 4 H).
Defined.

(** ** How long a session takes *)

Lemma monotone_clock_cons (a : Z) (rest : list Z) :
  monotone_clock (a :: rest) = true ->
  0 <= a < 2 ^ 32 /\ monotone_clock rest = true
  /\ Forall (fun t => a <= t < 2 ^ 32) rest.
Proof.
  revert a. induction rest as [| b rest IH]; intros a H.
  - cbn [monotone_clock] in H. rewrite !andb_true_iff in H.
    destruct H as [[[H0 H1] _] _].
    apply Z.leb_le in H0. apply Z.ltb_lt in H1. auto.
  - change (monotone_clock (a :: b :: rest))
      with ((0 <=? a) && (a <? 2 ^ 32) && (a <=? b)
            && monotone_clock (b :: rest)) in H.
    rewrite !andb_true_iff in H. destruct H as [[[H0 H1] Hab] Hr].
    apply Z.leb_le in H0, Hab. apply Z.ltb_lt in H1.
    destruct (IH b Hr) as (Hb & _ & F).
    split; [lia |]. split; [exact Hr |].
    constructor; [lia |].
    eapply Forall_impl; [| exact F]. cbv beta. intros t Ht. lia.
Qed.

Lemma last_above (a b dflt : Z) (l : list Z) :
  Forall (fun t => a <= t) l -> a <= b -> a <= last (b :: l) dflt.
Proof.
  revert b. induction l as [| h l IH]; intros b F Hb.
  - exact Hb.
  - change (last (b :: h :: l) dflt) with (last (h :: l) dflt).
    inversion F; subst. apply IH; assumption.
Qed.

Lemma run_session_cons (now : Z) (rest : list Z) (a b c : Z) (m : machine) :
  run_session (now :: rest) (a, b, c) m
  = if fst (traverse now a b c m) then Some (snd (traverse now a b c m))
    else run_session rest (a, b, c) (snd (traverse now a b c m)).
Proof.
  cbn [run_session]. destruct (traverse now a b c m) as [done m1].
  reflexivity.
Qed.

Ltac timing_arith :=
  unfold timing_inv; cbn [trav state idx timeStart timeDelay];
  unfold MAX_RGB_VALUE, MIN_RGB_VALUE, TRANSITION_DELAY, WAIT_DELAY in *;
  rewrite ?u16_small by lia; lia.

Lemma timing_run (d : Z * Z * Z) (t0 : Z) (clock : list Z) :
  forall (m m' : machine) (lo : Z),
    timing_inv t0 lo m ->
    monotone_clock clock = true ->
    Forall (fun t => lo <= t < 2 ^ 32) clock ->
    run_session clock d m = Some m' ->
    t0 + traversal_time <= last clock 0.
Proof.
  destruct d as [[a b] c].
  induction clock as [| now rest IH]; intros m m' lo T M F E;
    [discriminate |].
  destruct (monotone_clock_cons _ _ M) as (Hn & Mr & Fr).
  inversion F as [| ? ? Hlo _]; subst.
  cbn [run_session] in E. unfold timing_inv in T. cbv zeta in T.
  assert (Next : forall m1 : machine,
             timing_inv t0 now m1 -> run_session rest (a, b, c) m1 = Some m' ->
             t0 + traversal_time <= last (now :: rest) 0).
  { intros m1 T1 E1. destruct rest as [| r rest']; [discriminate |].
    change (last (now :: r :: rest') 0) with (last (r :: rest') 0).
    exact (IH m1 m' now T1 Mr Fr E1). }
  destruct (state (trav m)) eqn:St.
  - contradiction.
  - destruct T as [Hi Ht].
    destruct (Z_lt_le_dec (idx (trav m)) (MAX_RGB_VALUE - MIN_RGB_VALUE))
      as [L | L].
    + rewrite traverse_loop_step in E by assumption.
      eapply Next; [| exact E]. timing_arith.
    + rewrite traverse_loop_end in E by assumption.
      eapply Next; [| exact E]. timing_arith.
  - destruct T as (Hi & Hd & Hs & Ht).
    assert (U : u32 (now - timeStart (trav m)) = now - timeStart (trav m))
      by (unfold u32; apply Z.mod_small; lia).
    destruct (Z_lt_le_dec (u32 (now - timeStart (trav m)))
                (timeDelay (trav m))) as [L | L].
    + rewrite traverse_wait_hold in E by auto.
      apply (Next m); [| exact E].
      unfold timing_inv. rewrite St. cbv zeta.
      unfold MAX_RGB_VALUE, MIN_RGB_VALUE, TRANSITION_DELAY in *. lia.
    + rewrite traverse_waittrans_exit in E by assumption.
      eapply Next; [| exact E]. unfold with_state. timing_arith.
  - destruct T as (Hd & Hs & Ht).
    assert (U : u32 (now - timeStart (trav m)) = now - timeStart (trav m))
      by (unfold u32; apply Z.mod_small; lia).
    destruct (Z_lt_le_dec (u32 (now - timeStart (trav m)))
                (timeDelay (trav m))) as [L | L].
    + rewrite traverse_wait_hold in E by auto.
      apply (Next m); [| exact E].
      unfold timing_inv. rewrite St. cbv zeta.
      unfold MAX_RGB_VALUE, MIN_RGB_VALUE, TRANSITION_DELAY, WAIT_DELAY in *.
      lia.
    + unfold traversal_time, MAX_RGB_VALUE, MIN_RGB_VALUE, TRANSITION_DELAY,
        WAIT_DELAY in *.
      apply last_above; [| lia].
      eapply Forall_impl; [| exact Fr]. cbv beta. intros t Ht'. lia.
Qed.

(** X6. The header comment's total traversal time,
    [(MAX_RGB_VALUE - MIN_RGB_VALUE) * TRANSITION_DELAY + WAIT_DELAY], is a
    lower bound for the non-blocking engine: with 32-bit readings that
    never go back, a session with non-zero deltas is not reported complete
    before that many milliseconds have passed since its first call. *)
Theorem session_takes_traversal_time (d : Z * Z * Z) (clock : list Z)
  (m m' : machine) :
  nonzero d -> state (trav m) = S_INIT ->
  monotone_clock clock = true ->
  run_session clock d m = Some m' ->
  traversal_time <= last clock 0 - hd 0 clock.
Proof.
  intros N H0 M E. destruct clock as [| t0 rest]; [discriminate |].
  destruct (monotone_clock_cons _ _ M) as (Ht & Mr & Fr).
  destruct d as [[a b] c].
  rewrite run_session_cons, traverse_init in E by assumption.
  cbn [fst snd] in E.
  destruct rest as [| r rest']; [discriminate |].
  change (last (t0 :: r :: rest') 0) with (last (r :: rest') 0). cbn [hd].
  enough (t0 + traversal_time <= last (r :: rest') 0) by lia.
  refine (timing_run (a, b, c) t0 (r :: rest') _ m' t0 _ Mr Fr E).
  timing_arith.
Qed.

Lemma session_takes_traversal_time_witness :
  monotone_clock (readings steady_clock 493) = true
  /\ traversal_time = 25000
  /\ 25000 <= last (readings steady_clock 493) 0
              - hd 0 (readings steady_clock 493).
Proof.
  split; [vm_compute; reflexivity |]. split; [reflexivity |].
  assert (N : nonzero (1, 1, 1)) by discriminate.
  refine (session_takes_traversal_time (1, 1, 1) (readings steady_clock 493)
            power_on _ N eq_refl _ _);
    vm_compute; reflexivity.
Defined.

(** ** The blocking variant *)

Lemma position_shift (d : Z * Z * Z) (c : coord) (k : nat) :
  position d (advance d c) k = position d c (S k).
Proof. unfold position. rewrite Nat.iter_succ_r. reflexivity. Qed.

Lemma trail_cons (d : Z * Z * Z) (c : coord) (n : nat) :
  trail d c (S n) = c :: trail d (advance d c) n.
Proof.
  unfold trail. cbn [seq map]. f_equal.
  rewrite <- seq_shift, map_map. apply map_ext.
  intros k. symmetry. apply position_shift.
Qed.

Lemma blocking_for_loop_closed (dx dy dz n : Z) (j : nat) :
  forall (i : Z) (m : Blocking.machine),
    Z.of_nat j = n - i ->
    Blocking.for_loop n i dx dy dz m
    = Blocking.mkMachine
        (position (dx, dy, dz) (Blocking.v m) j)
        (Blocking.sink m
         ++ flat_map blocking_frame_events
              (trail (dx, dy, dz) (Blocking.v m) j))
        (Blocking.delayed m + TRANSITION_DELAY * Z.of_nat j).
Proof.
  induction j as [| j IH]; intros i m H;
    rewrite Blocking.for_loop_equation_1;
    destruct (Z_lt_dec i n) as [L | L]; try lia;
    cbn [Blocking.for_loop_unfold_clause_1].
  - destruct m as [c s t]. cbn. rewrite app_nil_r. f_equal. lia.
  - rewrite IH by lia.
    cbn [Blocking.v Blocking.sink Blocking.delayed Blocking.analogWrite
         Blocking.delay].
    change (mkCoord (u8 (x (Blocking.v m) + dx)) (u8 (y (Blocking.v m) + dy))
              (u8 (z (Blocking.v m) + dz)))
      with (advance (dx, dy, dz) (Blocking.v m)).
    rewrite position_shift, trail_cons. cbn [flat_map].
    f_equal.
    + rewrite <- !app_assoc. reflexivity.
    + lia.
Qed.

Lemma blocking_traverse_closed (dx dy dz : Z) (m : Blocking.machine) :
  nonzero (dx, dy, dz) ->
  Blocking.traverse dx dy dz m
  = Blocking.mkMachine
      (position (dx, dy, dz) (Blocking.v m) STEPS)
      (Blocking.sink m
       ++ flat_map blocking_frame_events
            (trail (dx, dy, dz) (Blocking.v m) STEPS))
      (Blocking.delayed m + traversal_time).
Proof.
  intros N. unfold Blocking.traverse. rewrite nonzero_test by exact N.
  rewrite (blocking_for_loop_closed dx dy dz _ STEPS)
    by (rewrite STEPS_val; lia).
  unfold Blocking.delay. cbn [Blocking.v Blocking.sink Blocking.delayed].
  f_equal. rewrite STEPS_val. unfold traversal_time. lia.
Qed.

(** X7. The blocking [traverse] with deltas that are not all zero pushes
    exactly [MAX_RGB_VALUE - MIN_RGB_VALUE] triples to its pins 13, 11 and
    12 and nothing else, the first triple being the coordinate it was
    entered with, and spends exactly the total traversal time of the header
    comment in [delay]; with all-zero deltas it returns at once, having
    written and waited nothing. *)
Theorem blocking_traverse_cost (dx dy dz : Z) (m : Blocking.machine) :
  (nonzero (dx, dy, dz) ->
   exists w : list coord,
     Blocking.sink (Blocking.traverse dx dy dz m)
     = Blocking.sink m ++ flat_map blocking_frame_events w
     /\ Z.of_nat (length w) = MAX_RGB_VALUE - MIN_RGB_VALUE
     /\ nth_error w 0 = Some (Blocking.v m)
     /\ Blocking.delayed (Blocking.traverse dx dy dz m)
        = Blocking.delayed m
          + (MAX_RGB_VALUE - MIN_RGB_VALUE) * TRANSITION_DELAY + WAIT_DELAY)
  /\ Blocking.traverse 0 0 0 m = m.
Proof.
  split; [| reflexivity].
  intros N. rewrite blocking_traverse_closed by exact N.
  cbn [Blocking.sink Blocking.delayed].
  exists (trail (dx, dy, dz) (Blocking.v m) STEPS).
  split; [reflexivity |]. rewrite trail_length.
  split; [apply STEPS_val |]. split.
  - change STEPS with (S 244). rewrite trail_cons. reflexivity.
  - unfold traversal_time. lia.
Qed.

Lemma blocking_traverse_cost_witness :
  nonzero (1, 0, -1)
  /\ exists w : list coord,
       Blocking.sink
         (Blocking.traverse 1 0 (-1)
            (Blocking.mkMachine (mkCoord 10 10 255) [] 0))
       = flat_map (fun c => [(13, x c); (11, y c); (12, z c)]) w
       /\ Z.of_nat (length w) = 245
       /\ nth_error w 0 = Some (mkCoord 10 10 255)
       /\ Blocking.delayed
            (Blocking.traverse 1 0 (-1)
               (Blocking.mkMachine (mkCoord 10 10 255) [] 0))
          = 0 + (255 - 10) * 100 + 500.
Proof.
  assert (N : nonzero (1, 0, -1)) by discriminate.
  split; [exact N |].
  exact (proj1 (blocking_traverse_cost 1 0 (-1)
                  (Blocking.mkMachine (mkCoord 10 10 255) [] 0)) N).
Defined.



Lemma blocking_inv_step (now : Z) (lm : Blocking.statics * Blocking.machine) :
  0 <= now < 2 ^ 32 -> blocking_inv lm ->
  exists lm' : Blocking.statics * Blocking.machine,
    Blocking.loop true now lm = Some lm' /\ blocking_inv lm'
    /\ Blocking.v1 (fst lm') = Blocking.v2 (fst lm)
    /\ 0 <= Blocking.v2 (fst lm') <= 7.
Proof.
  intros Hn (b & Hb & Hv). destruct lm as [l m]. cbn [fst snd] in *.
  destruct (MD_Random_digit_sum now Hn) as (_ & _ & B & _).
  assert (U : u8 (MD_Random now MAX_VERTICES) = MD_Random now MAX_VERTICES)
    by (apply u8_small; lia).
  destruct (vertex_at_some (MD_Random now MAX_VERTICES) B) as (c & Hc).
  unfold Blocking.loop. rewrite U, (deltas_some _ _ b c Hb Hc).
  eexists. split; [reflexivity |]. cbn [fst snd Blocking.v1 Blocking.v2].
  split; [| split; [reflexivity | exact B]].
  exists c. split; [exact Hc |].
  destruct (Z.eq_dec (Blocking.v2 l) (MD_Random now MAX_VERTICES)) as [E | N].
  - rewrite <- E in Hc. rewrite Hb in Hc. injection Hc as <-.
    rewrite !Z.sub_diag. exact Hv.
  - rewrite blocking_traverse_closed
      by (eapply deltas_nonzero; eassumption).
    cbn [Blocking.v]. rewrite Hv. eapply vertex_arrival; eassumption.
Qed.

(** X9. The blocking lamp in the random build: whatever 32-bit readings
    [millis()] returns, every pass of its [loop] after [setup] is defined,
    selects a vertex between 0 and 7 and returns with the coordinate at
    exactly the materialized form of that vertex. *)
Theorem blocking_lamp_lands_on_vertex (clock : list Z) :
  Forall (fun t => 0 <= t < 2 ^ 32) clock ->
  exists (l : Blocking.statics) (m : Blocking.machine) (b : coord),
    Blocking.loop_all true clock (Blocking.initial, Blocking.power_on)
    = Some (l, m)
    /\ 0 <= Blocking.v2 l <= 7
    /\ vertex_at (Blocking.v2 l) = Some b
    /\ Blocking.v m = materialize b.
Proof.
  intros H.
  assert (G : forall lm : Blocking.statics * Blocking.machine,
             blocking_inv lm ->
             exists lm' : Blocking.statics * Blocking.machine,
               Blocking.loop_all true clock lm = Some lm'
               /\ blocking_inv lm').
  { induction H as [| now rest Hn _ IH]; intros lm I.
    - exists lm. split; [reflexivity | exact I].
    - destruct (blocking_inv_step now lm Hn I) as (lm1 & E1 & I1 & _).
      destruct (IH lm1 I1) as (lm' & E' & I').
      exists lm'. cbn [Blocking.loop_all]. rewrite E1. auto. }
  destruct (G (Blocking.initial, Blocking.power_on)) as ([l m] & E & I).
  { exists (mkCoord 0 0 0). split; reflexivity. }
  destruct I as (b & Hb & Hv). cbn [fst snd] in Hb, Hv.
  pose proof (vertex_at_range _ _ Hb).
  exists l, m, b. repeat split; (assumption || lia).
Qed.

Lemma blocking_lamp_lands_on_vertex_witness :
  Forall (fun t => 0 <= t < 2 ^ 32) [123; 4567; 89]
  /\ exists (l : Blocking.statics) (m : Blocking.machine) (b : coord),
       Blocking.loop_all true [123; 4567; 89]
         (Blocking.initial, Blocking.power_on)
       = Some (l, m)
       /\ 0 <= Blocking.v2 l <= 7
       /\ vertex_at (Blocking.v2 l) = Some b
       /\ Blocking.v m = materialize b.
Proof.
  assert (H : Forall (fun t => 0 <= t < 2 ^ 32) [123; 4567; 89])
    by (repeat constructor; simpl; lia).
  split; [exact H |].
  exact (blocking_lamp_lands_on_vertex [123; 4567; 89] H).
Defined.

(** ** The random selector with any table size *)

(** X10. For every 32-bit counter value and every positive [nMax],
    [MD_Random] returns the decimal digit sum of the counter modulo [nMax]:
    an index below [nMax], and never more than 90, the largest sum ten
    digits allow, so entries past index 90 of a longer table would never be
    selected. *)
Theorem MD_Random_any_size (now nMax : Z) :
  0 <= now < 2 ^ 32 -> 0 < nMax ->
  MD_Random now nMax = digit_sum now mod nMax
  /\ 0 <= MD_Random now nMax < nMax
  /\ MD_Random now nMax <= 90.
Proof.
  intros Hn Hm.
  pose proof (digits_bound now (seq 0 10)) as B. rewrite length_seq in B.
  fold (digit_sum now) in B.
  pose proof (Z.mod_pos_bound (digit_sum now) nMax Hm) as R.
  assert (Q : digit_sum now mod nMax <= digit_sum now)
    by (apply Z.mod_le; lia).
  assert (E : MD_Random now nMax = digit_sum now mod nMax).
  { unfold MD_Random.
    rewrite (digit_loop_sum 10) by (simpl; lia).
    rewrite Z.add_0_l. fold (digit_sum now).
    rewrite Z.rem_mod_nonneg by lia.
    apply u16_small. lia. }
  rewrite E. lia.
Qed.

Lemma MD_Random_any_size_witness :
  0 <= 3999999999 < 2 ^ 32 /\ 0 < 100
  /\ MD_Random 3999999999 100 = digit_sum 3999999999 mod 100
  /\ 0 <= MD_Random 3999999999 100 < 100
  /\ MD_Random 3999999999 100 <= 90.
Proof.
  assert (Hn : 0 <= 3999999999 < 2 ^ 32) by (simpl; lia).
  assert (Hm : 0 < 100) by lia.
  split; [exact Hn |]. split; [exact Hm |].
  exact (MD_Random_any_size 3999999999 100 Hn Hm).
Defined.

(** ** The timers across a wrap of the millisecond counter *)

(** X11. The wait test [millis() - timeStart >= timeDelay] is taken in
    unsigned 32-bit arithmetic, so it measures the true elapsed time even
    when the counter has wrapped round since the timer was started: for
    true instants [T0 <= T] less than 2^32 ms apart, of which the engine
    only sees the low 32 bits, a waiting [traverse] stays put exactly while
    [T - T0] is below the delay and moves on as soon as it is not. *)
Theorem wait_measures_true_elapsed_time (T0 T a b c : Z) (m : machine) :
  state (trav m) = S_WAITTRANS \/ state (trav m) = S_WAITDELAY ->
  timeStart (trav m) = u32 T0 ->
  0 <= T - T0 < 2 ^ 32 ->
  (T - T0 < timeDelay (trav m) -> traverse (u32 T) a b c m = (false, m))
  /\ (timeDelay (trav m) <= T - T0 ->
      state (trav m) = S_WAITTRANS ->
      traverse (u32 T) a b c m = (false, with_state S_LOOP m))
  /\ (timeDelay (trav m) <= T - T0 ->
      state (trav m) = S_WAITDELAY ->
      traverse (u32 T) a b c m = (true, with_state S_INIT m)).
Proof.
  intros St Ts R.
  assert (U : u32 (u32 T - timeStart (trav m)) = T - T0).
  { rewrite Ts. unfold u32. rewrite <- Zminus_mod. apply Z.mod_small. exact R. }
  split; [| split].
  - intros L. apply traverse_wait_hold; [exact St | lia].
  - intros L S1. apply traverse_waittrans_exit; [exact S1 | lia].
  - intros L S1. apply traverse_waitdelay_exit; [exact S1 | lia].
Qed.

Lemma wait_measures_true_elapsed_time_witness :
  traverse (u32 (2 ^ 32 + 60)) 1 1 1
    (mkMachine (mkCoord 11 11 11)
       (Traverse.mkStatics S_WAITTRANS (u32 (2 ^ 32 - 50)) 100 1 1 1 1) [])
  = (false,
     mkMachine (mkCoord 11 11 11)
       (Traverse.mkStatics S_LOOP (u32 (2 ^ 32 - 50)) 100 1 1 1 1) []).
Proof.
  refine (proj1 (proj2 (wait_measures_true_elapsed_time (2 ^ 32 - 50)
                          (2 ^ 32 + 60) 1 1 1
                          (mkMachine (mkCoord 11 11 11)
                             (Traverse.mkStatics S_WAITTRANS
                                (u32 (2 ^ 32 - 50)) 100 1 1 1 1) [])
                          (or_introl eq_refl) eq_refl _)) _ eq_refl);
    cbn [trav timeDelay]; lia.
Defined.
